(** * FermatSnellSimulator: the path computation of [simulation/simulator.py]

    A shallow embedding of the class [PathSimulator] and the proofs of its
    specification.

    Numbers.  The source computes with IEEE doubles; this development reads
    every float as a real number (exact arithmetic), so rounding, overflow,
    infinities and NaN are outside the model.  What the model keeps of the
    float operations is where Python raises: a division of two Python floats
    by zero raises [ZeroDivisionError], and [math.asin] outside [-1, 1]
    raises [ValueError].

    Library functions.  [math.sin], [math.cos], [math.atan], [math.asin] and
    [np.sqrt] are the functions of the same name of the real analysis
    library; [math.atan2], [np.clip] and [np.sign] are written out from their
    documented definitions.  [scipy.optimize.minimize] is a parameter of the
    model: the simulator is verified against any minimizer, and the theorems
    that need a property of the minimizer state it as a hypothesis. *)

From Stdlib Require Import ZArith Reals Lra Psatz List Bool.
Import ListNotations.

Open Scope R_scope.

(** ** Exceptions *)

Inductive exn : Type :=
| ZeroDivisionError
| ValueError.

Inductive result (A : Type) : Type :=
| Ok (a : A)
| Raise (e : exn).

Arguments Ok {A} a.
Arguments Raise {A} e.

Definition bind {A B : Type} (m : result A) (k : A -> result B) : result B :=
  match m with
  | Ok a => k a
  | Raise e => Raise e
  end.

Notation "x <- m ;; k" := (bind m (fun x => k))
  (at level 61, m at next level, right associativity).

(** ** Library functions *)

(** Division of floats: a zero divisor raises. *)
Definition float_div (x y : R) : result R :=
  if Req_dec_T y 0 then Raise ZeroDivisionError else Ok (x / y).

(** [math.atan2(y, x)]: the angle of the vector (x, y), in (-pi, pi]. *)
Definition atan2 (y x : R) : R :=
  if Rlt_dec 0 x then atan (y / x)
  else if Rlt_dec x 0 then
    (if Rle_dec 0 y then atan (y / x) + PI else atan (y / x) - PI)
  else if Rlt_dec 0 y then PI / 2
  else if Rlt_dec y 0 then - (PI / 2)
  else 0.

(** [math.asin]: a domain error outside [-1, 1]. *)
Definition math_asin (x : R) : result R :=
  if Rle_dec (-1) x then
    if Rle_dec x 1 then Ok (asin x) else Raise ValueError
  else Raise ValueError.

(** [np.clip(a, a_min, a_max)] is [minimum(a_max, maximum(a, a_min))]. *)
Definition np_clip (a a_min a_max : R) : R := Rmin a_max (Rmax a a_min).

(** [np.sign]: -1, 0 or 1. *)
Definition np_sign (x : R) : R :=
  if Rlt_dec x 0 then -1 else if Rlt_dec 0 x then 1 else 0.

(** The part of scipy's [OptimizeResult] the simulator can observe: the
    solution [res.x[0]] and the flag [res.success]. *)
Record OptimizeResult : Type := {
  res_x : R;
  res_success : bool
}.

(** [minimize(fun, x0, method='L-BFGS-B', bounds=[(lo, hi)], options=...)]
    for a function of one variable. *)
Definition minimizer : Type := (R -> R) -> R -> R * R -> OptimizeResult.

(** ** The simulator *)

Definition Point : Type := (R * R)%type.

Record PathSimulator : Type := {
  speed_of_light : R;
  refractive_index_1 : R;
  refractive_index_2 : R;
  point_a : Point;
  point_b : Point;
  interface_y : R;
  plane_size : R * R
}.

(** [PathSimulator.__init__] *)
Definition init (c material_velocity_1 material_velocity_2 : R)
    (a b : Point) (iy : R) (size : R * R) : result PathSimulator :=
  n1 <- float_div c material_velocity_1 ;;
  n2 <- float_div c material_velocity_2 ;;
  Ok {| speed_of_light := c;
        refractive_index_1 := n1;
        refractive_index_2 := n2;
        point_a := a;
        point_b := b;
        interface_y := iy;
        plane_size := size |}.

Section Simulator.

Variable minimize : minimizer.
Variable self : PathSimulator.

(** [calculate_distance_and_incidence_angle] *)
Definition calculate_distance_and_incidence_angle (x_interface : R) : R * R :=
  let dx := x_interface - fst (point_a self) in
  let dy := interface_y self - snd (point_a self) in
  let distance_1 := sqrt (dx ^ 2 + dy ^ 2) in
  let incidence_angle := atan2 dy dx in
  (distance_1, incidence_angle).

(** [time_to_travel].  The divisions here are numpy's, which do not raise;
    for [speed_of_light = 0] numpy yields inf or nan, which the model does
    not represent, so the theorems on the value of [time_to_travel] assume a
    non-zero [speed_of_light]. *)
Definition time_to_travel (x_interface : R) : R :=
  let '(distance_1, incidence_angle) :=
    calculate_distance_and_incidence_angle x_interface in
  let segment_1 := distance_1 in
  let segment_2 :=
    sqrt ((fst (point_b self) - x_interface) ^ 2
          + (snd (point_b self) - interface_y self) ^ 2) in
  let time_material_1 := segment_1 / speed_of_light self * refractive_index_1 self in
  let time_material_2 := segment_2 / speed_of_light self * refractive_index_2 self in
  time_material_1 + time_material_2.

(** The call of the minimizer in [calculate_optimal_path], before the
    solution is read from it. *)
Definition optimal_path_result : OptimizeResult :=
  let min_x := Rmin (fst (point_a self)) (fst (point_b self)) in
  let max_x := Rmax (fst (point_a self)) (fst (point_b self)) in
  let bounds_x := (min_x, max_x) in
  let x0 := fst (point_a self) in
  minimize time_to_travel x0 bounds_x.

(** [calculate_optimal_path]: [return res.x[0]], whatever [res.success]. *)
Definition calculate_optimal_path : result R :=
  let res := optimal_path_result in
  Ok (res_x res).

(** The direction of the refracted path (the [if] of [calculate_path]).  The
    division that forms the slope is the only one of this step; a zero
    divisor there is counted as a fault, like a division of Python floats. *)
Definition angle_to_horizontal (x_interface_optimal : R) : result R :=
  if Req_dec_T (fst (point_b self)) x_interface_optimal then
    Ok (PI / 2 * np_sign (snd (point_b self) - interface_y self))
  else
    slope <- float_div (snd (point_b self) - interface_y self)
                       (fst (point_b self) - x_interface_optimal) ;;
    Ok (atan slope).

(** The refraction angle of Snell's law (the four lines of [calculate_path]
    under "Calculate refraction angle"). *)
Definition calculate_refraction_angle (incidence_angle : R) : result R :=
  let sine_incidence := sin incidence_angle in
  ratio <- float_div (refractive_index_1 self) (refractive_index_2 self) ;;
  let sine_refraction := ratio * sine_incidence in
  let sine_refraction := np_clip sine_refraction (-1) 1 in
  math_asin sine_refraction.

(** [calculate_path]: the four points [A; incidence; refraction; B]. *)
Definition calculate_path : result (list Point) :=
  x_interface_optimal <- calculate_optimal_path ;;
  let '(distance_1, incidence_angle) :=
    calculate_distance_and_incidence_angle x_interface_optimal in
  refraction_angle <- calculate_refraction_angle incidence_angle ;;
  let x_incidence := fst (point_a self) + distance_1 * cos incidence_angle in
  let y_incidence := snd (point_a self) + distance_1 * sin incidence_angle in
  let segment_2 :=
    sqrt ((fst (point_b self) - x_interface_optimal) ^ 2
          + (snd (point_b self) - interface_y self) ^ 2) in
  angle_to_horizontal <- angle_to_horizontal x_interface_optimal ;;
  let x_refraction := x_interface_optimal + segment_2 * cos angle_to_horizontal in
  let y_refraction := interface_y self + segment_2 * sin angle_to_horizontal in
  let path_segment_1 := [point_a self; (x_incidence, interface_y self)] in
  let path_segment_2 := [(x_refraction, y_refraction); point_b self] in
  Ok (path_segment_1 ++ path_segment_2).

End Simulator.

(** ** Minimizers used to run the model on concrete inputs *)

(** Returns the middle of the search interval and reports success. *)
Definition midpoint_minimize : minimizer :=
  fun _ _ bounds =>
    {| res_x := (fst bounds + snd bounds) / 2; res_success := true |}.

(** Stays at the initial guess and reports failure. *)
Definition stalled_minimize : minimizer :=
  fun _ x0 _ => {| res_x := x0; res_success := false |}.

(** [minimize] with its success flag replaced by [flag]. *)
Definition reporting (flag : bool) (minimize : minimizer) : minimizer :=
  fun f x0 bounds =>
    {| res_x := res_x (minimize f x0 bounds); res_success := flag |}.

(** The bounds contract of L-BFGS-B: the solution lies in the box. *)
Definition within_bounds (minimize : minimizer) : Prop :=
  forall (f : R -> R) (x0 lo hi : R),
    lo <= hi -> lo <= res_x (minimize f x0 (lo, hi)) <= hi.

(** [x] minimizes [f] on [lo, hi]. *)
Definition is_argmin (f : R -> R) (lo hi x : R) : Prop :=
  lo <= x <= hi /\ forall y, lo <= y <= hi -> f x <= f y.

(** The abscissa [calculate_optimal_path] hands to [calculate_path]. *)
Definition crossing (minimize : minimizer) (self : PathSimulator) : R :=
  res_x (optimal_path_result minimize self).

(** The mirror image of B through the point [(x, interface_y)]. *)
Definition mirror_b (self : PathSimulator) (x : R) : Point :=
  (2 * x - fst (point_b self), 2 * interface_y self - snd (point_b self)).

(** The minimizer's answer for [self] is a minimum of [time_to_travel] on
    the search interval. *)
Definition finds_minimum (minimize : minimizer) (self : PathSimulator) : Prop :=
  is_argmin (time_to_travel self)
    (Rmin (fst (point_a self)) (fst (point_b self)))
    (Rmax (fst (point_a self)) (fst (point_b self)))
    (crossing minimize self).

(** ** Concrete simulators *)

(** A = (0, 10), B = (10, -10), interface at 0, equal speeds. *)
Definition symmetric_sim : PathSimulator :=
  {| speed_of_light := 1;
     refractive_index_1 := 1 / 1;
     refractive_index_2 := 1 / 1;
     point_a := (0, 10);
     point_b := (10, -10);
     interface_y := 0;
     plane_size := (20, 20) |}.

(** The same with A and B exchanged in x: B lies to the left of A. *)
Definition leftward_sim : PathSimulator :=
  {| speed_of_light := 1;
     refractive_index_1 := 1 / 1;
     refractive_index_2 := 1 / 1;
     point_a := (10, 10);
     point_b := (0, -10);
     interface_y := 0;
     plane_size := (20, 20) |}.

(** Medium 2 twice as fast as medium 1: the unclamped refraction sine
    exceeds 1 in magnitude. *)
Definition steep_sim : PathSimulator :=
  {| speed_of_light := 2;
     refractive_index_1 := 2 / 1;
     refractive_index_2 := 2 / 2;
     point_a := (0, 10);
     point_b := (10, -10);
     interface_y := 0;
     plane_size := (20, 20) |}.

(** The sum of the two segment lengths of the symmetric configuration. *)
Definition symmetric_length (x : R) : R :=
  sqrt ((x - 0) ^ 2 + (0 - 10) ^ 2) + sqrt ((10 - x) ^ 2 + (-10 - 0) ^ 2).

(** A minimizer that has settled on [x]. *)
Definition fixed_minimize (x : R) : minimizer :=
  fun _ _ _ => {| res_x := x; res_success := true |}.

(** A = (0, 4), B = (7, -3), interface at 0, speeds 3 above and 4 below. *)
Definition refracting_sim : PathSimulator :=
  {| speed_of_light := 1;
     refractive_index_1 := 1 / 3;
     refractive_index_2 := 1 / 4;
     point_a := (0, 4);
     point_b := (7, -3);
     interface_y := 0;
     plane_size := (20, 20) |}.

(** Where the straight line from [a] to [b] meets the line [y = iy]. *)
Definition straight_crossing (a b : Point) (iy : R) : R :=
  fst a + (fst b - fst a) * (snd a - iy) / (snd a - snd b).

(** ** The animator ([visualization/animator.py]) *)

(** [int(x)] of a float: truncation towards zero. *)
Definition int_of_float (x : R) : Z :=
  if Rle_dec 0 x then Zfloor x else Zceil x.

(** [np.interp(t, [0, 1], [f0, f1])]: linear between the two values,
    constant outside [0, 1]. *)
Definition np_interp (t f0 f1 : R) : R :=
  if Rlt_dec t 0 then f0
  else if Rle_dec 1 t then f1
  else (f1 - f0) / (1 - 0) * (t - 0) + f0.

(** [np.sum] *)
Definition np_sum (l : list R) : R := fold_right Rplus 0 l.

(** [np.sqrt(np.diff(path[:, 0]) ** 2 + np.diff(path[:, 1]) ** 2)]: the
    lengths of the segments between consecutive points. *)
Fixpoint path_lengths (path : list Point) : list R :=
  match path with
  | p :: (q :: _) as rest =>
      sqrt ((fst q - fst p) ^ 2 + (snd q - snd p) ^ 2) :: path_lengths rest
  | _ => []
  end.

(** A list comprehension whose body can raise. *)
Fixpoint map_result {A B : Type} (f : A -> result B) (l : list A)
    : result (list B) :=
  match l with
  | [] => Ok []
  | a :: l' => b <- f a ;; bs <- map_result f l' ;; Ok (b :: bs)
  end.

(** One entry of [segment_frames],
    [int(self.total_frames * length / total_length)].  The lengths are square
    roots, so a zero [total_length] means that [length] is zero too: numpy
    gives nan for the quotient, and [int] of nan raises ValueError.  The
    quotient is the exact one; in doubles it can fall just below a whole
    number and lose a frame, so nothing here bounds the count from below. *)
Definition frames_of_length (total_frames : Z) (total_length length : R)
    : result Z :=
  if Req_dec_T total_length 0 then Raise ValueError
  else Ok (int_of_float (IZR total_frames * length / total_length)).

(** The inner loop of [generate_frames]: the marker positions on the segment
    from [path[segment_index]] to [path[segment_index + 1]].  Both indices
    are inside the path, there being one segment less than points. *)
Definition segment_positions (path : list Point) (segment_index : nat)
    (num_frames : Z) : list Point :=
  map (fun i : nat =>
         let t := INR i / IZR num_frames in
         let x := np_interp t (fst (nth segment_index path (0, 0)))
                               (fst (nth (S segment_index) path (0, 0))) in
         let y := np_interp t (snd (nth segment_index path (0, 0)))
                               (snd (nth (S segment_index) path (0, 0))) in
         (x, y))
      (seq 0 (Z.to_nat num_frames)).

(** [Animator.generate_frames], on the animator's [path] and
    [total_frames]. *)
Definition generate_frames (path : list Point) (total_frames : Z)
    : result (list Point) :=
  let lengths := path_lengths path in
  let total_length := np_sum lengths in
  segment_frames <-
    map_result (frames_of_length total_frames total_length) lengths ;;
  Ok (flat_map
        (fun '(segment_index, num_frames) =>
           segment_positions path segment_index num_frames)
        (combine (seq 0 (length segment_frames)) segment_frames)).

(** The path has no extent: at least two points, all the same. *)
Definition degenerate_path (path : list Point) : Prop :=
  (2 <= length path)%nat /\ forall p, In p path -> p = hd (0, 0) path.

(** [main.py], from the values read from the configuration to the frames the
    animator is constructed with: the simulator is built, its path computed
    and handed to the animator, whose constructor generates the frames. *)
Definition main_frames (minimize : minimizer)
    (speed_of_light material_velocity_1 material_velocity_2 : R)
    (point_a point_b : Point) (interface_y size : R) (frames : Z)
    : result (list Point) :=
  simulator <- init speed_of_light material_velocity_1 material_velocity_2
                 point_a point_b interface_y (size, size) ;;
  path <- calculate_path minimize simulator ;;
  generate_frames path frames.

(** * Proofs *)

(** ** Projections along an angle *)

Lemma hypot_scale (d e : R) :
  d <> 0 -> sqrt (d ^ 2 + e ^ 2) = Rabs d * sqrt (1 + (e / d)²).
Proof.
  intros Hd.
  assert (Hs : 0 <= 1 + (e / d)²) by (unfold Rsqr; nra).
  apply sqrt_lem_1.
  - nra.
  - apply Rmult_le_pos; [apply Rabs_pos | apply sqrt_pos].
  - transitivity ((Rabs d * Rabs d) * (sqrt (1 + (e / d)²) * sqrt (1 + (e / d)²))).
    + ring.
    + rewrite sqrt_sqrt by exact Hs.
      replace (Rabs d * Rabs d) with (d * d).
      * unfold Rsqr. field. exact Hd.
      * unfold Rabs. destruct (Rcase_abs d); ring.
Qed.

Lemma sqrt_one_plus_sqr_pos (s : R) : 0 < sqrt (1 + s²).
Proof. apply sqrt_lt_R0. unfold Rsqr. nra. Qed.

Lemma proj_cos_atan (d e : R) :
  d <> 0 -> sqrt (d ^ 2 + e ^ 2) * cos (atan (e / d)) = Rabs d.
Proof.
  intros Hd. rewrite (hypot_scale d e Hd), cos_atan.
  pose proof (sqrt_one_plus_sqr_pos (e / d)). field. lra.
Qed.

Lemma proj_sin_atan (d e : R) :
  d <> 0 -> sqrt (d ^ 2 + e ^ 2) * sin (atan (e / d)) = Rabs d * (e / d).
Proof.
  intros Hd. rewrite (hypot_scale d e Hd), sin_atan.
  pose proof (sqrt_one_plus_sqr_pos (e / d)). field. lra.
Qed.

Lemma cos_minus_PI (x : R) : cos (x - PI) = - cos x.
Proof. rewrite cos_minus, cos_PI, sin_PI. ring. Qed.

Lemma sin_minus_PI (x : R) : sin (x - PI) = - sin x.
Proof. rewrite sin_minus, cos_PI, sin_PI. ring. Qed.

Lemma proj_cos_atan2 (dy dx : R) :
  sqrt (dx ^ 2 + dy ^ 2) * cos (atan2 dy dx) = dx.
Proof.
  unfold atan2.
  destruct (Rlt_dec 0 dx) as [Hpos | Hnpos].
  - rewrite proj_cos_atan by lra. apply Rabs_pos_eq. lra.
  - destruct (Rlt_dec dx 0) as [Hneg | Hnneg].
    + assert (Hgoal : sqrt (dx ^ 2 + dy ^ 2) * - cos (atan (dy / dx)) = dx).
      { rewrite Ropp_mult_distr_r_reverse, proj_cos_atan by lra.
        rewrite Rabs_left by lra. ring. }
      destruct (Rle_dec 0 dy).
      * rewrite neg_cos. exact Hgoal.
      * rewrite cos_minus_PI. exact Hgoal.
    + assert (dx = 0) by lra. subst dx.
      destruct (Rlt_dec 0 dy); [rewrite cos_PI2; ring |].
      destruct (Rlt_dec dy 0); [rewrite cos_neg, cos_PI2; ring |].
      assert (dy = 0) by lra. subst dy.
      replace (0 ^ 2 + 0 ^ 2) with 0 by ring. rewrite sqrt_0. ring.
Qed.

Lemma proj_sin_atan2 (dy dx : R) :
  sqrt (dx ^ 2 + dy ^ 2) * sin (atan2 dy dx) = dy.
Proof.
  unfold atan2.
  destruct (Rlt_dec 0 dx) as [Hpos | Hnpos].
  - rewrite proj_sin_atan by lra. rewrite Rabs_pos_eq by lra. field. lra.
  - destruct (Rlt_dec dx 0) as [Hneg | Hnneg].
    + assert (Hgoal : sqrt (dx ^ 2 + dy ^ 2) * - sin (atan (dy / dx)) = dy).
      { rewrite Ropp_mult_distr_r_reverse, proj_sin_atan by lra.
        rewrite Rabs_left by lra. field. lra. }
      destruct (Rle_dec 0 dy).
      * rewrite neg_sin. exact Hgoal.
      * rewrite sin_minus_PI. exact Hgoal.
    + assert (dx = 0) by lra. subst dx.
      replace (0 ^ 2 + dy ^ 2) with (dy ^ 2) by ring.
      destruct (Rlt_dec 0 dy) as [Hy | Hy].
      { rewrite sin_PI2, sqrt_pow2 by lra. ring. }
      destruct (Rlt_dec dy 0) as [Hy' | Hy'].
      { rewrite sin_neg, sin_PI2.
        replace (dy ^ 2) with ((- dy) ^ 2) by ring.
        rewrite sqrt_pow2 by lra. ring. }
      assert (dy = 0) by lra. subst dy. rewrite sin_0. ring.
Qed.

(** ** The library functions on their domains *)

Lemma float_div_nonzero (x y : R) : y <> 0 -> float_div x y = Ok (x / y).
Proof.
  intros Hy. unfold float_div. destruct (Req_dec_T y 0); [contradiction | reflexivity].
Qed.

Lemma float_div_zero (x : R) : float_div x 0 = Raise ZeroDivisionError.
Proof.
  unfold float_div. destruct (Req_dec_T 0 0) as [_ | Hne]; [reflexivity | now elim Hne].
Qed.

Lemma np_clip_range (a : R) : -1 <= np_clip a (-1) 1 <= 1.
Proof.
  unfold np_clip, Rmin, Rmax.
  destruct (Rle_dec a (-1)); destruct (Rle_dec 1 _); lra.
Qed.

Lemma np_clip_inside (a : R) : -1 <= a <= 1 -> np_clip a (-1) 1 = a.
Proof.
  intros Ha. unfold np_clip, Rmin, Rmax.
  destruct (Rle_dec a (-1)); destruct (Rle_dec 1 _); lra.
Qed.

Lemma math_asin_in_range (x : R) : -1 <= x <= 1 -> math_asin x = Ok (asin x).
Proof.
  intros [Hlo Hhi]. unfold math_asin.
  destruct (Rle_dec (-1) x); [| contradiction].
  destruct (Rle_dec x 1); [reflexivity | contradiction].
Qed.

Lemma math_asin_clip (a : R) :
  math_asin (np_clip a (-1) 1) = Ok (asin (np_clip a (-1) 1)).
Proof. apply math_asin_in_range, np_clip_range. Qed.

Lemma np_sign_pos (x : R) : 0 < x -> np_sign x = 1.
Proof.
  intros Hx. unfold np_sign.
  destruct (Rlt_dec x 0); [lra |]. destruct (Rlt_dec 0 x); [reflexivity | lra].
Qed.

Lemma np_sign_neg (x : R) : x < 0 -> np_sign x = -1.
Proof.
  intros Hx. unfold np_sign. destruct (Rlt_dec x 0); [reflexivity | lra].
Qed.

Lemma np_sign_zero : np_sign 0 = 0.
Proof.
  unfold np_sign.
  destruct (Rlt_dec 0 0); [lra |]. destruct (Rlt_dec 0 0); [lra | reflexivity].
Qed.

(** ** The crossing point and the two projected points *)

Section PathShape.

Variable minimize : minimizer.
Variable self : PathSimulator.

Let ax := fst (point_a self).
Let ay := snd (point_a self).
Let bx := fst (point_b self).
Let b_y := snd (point_b self).
Let iy := interface_y self.

Lemma calculate_optimal_path_crossing :
  calculate_optimal_path minimize self = Ok (crossing minimize self).
Proof. reflexivity. Qed.

(** Projecting from A along the incidence angle lands on the crossing. *)
Lemma incidence_point (x : R) :
  let '(distance_1, incidence_angle) :=
    calculate_distance_and_incidence_angle self x in
  ax + distance_1 * cos incidence_angle = x.
Proof.
  unfold calculate_distance_and_incidence_angle. cbv zeta.
  rewrite proj_cos_atan2. unfold ax. ring.
Qed.

Lemma angle_to_horizontal_vertical (x : R) :
  bx = x ->
  angle_to_horizontal self x = Ok (PI / 2 * np_sign (b_y - iy)).
Proof.
  intros Hx. unfold angle_to_horizontal. fold bx.
  destruct (Req_dec_T bx x); [reflexivity | contradiction].
Qed.

Lemma angle_to_horizontal_slanted (x : R) :
  bx <> x ->
  angle_to_horizontal self x = Ok (atan ((b_y - iy) / (bx - x))).
Proof.
  intros Hx. unfold angle_to_horizontal. fold bx.
  destruct (Req_dec_T bx x); [contradiction |].
  rewrite float_div_nonzero by (unfold bx in *; lra). reflexivity.
Qed.

(** Projecting from the crossing along [angle_to_horizontal] for the length
    of the second segment: B itself when B is not left of the crossing, the
    mirror image of B otherwise. *)
Lemma refraction_point (x : R) :
  exists angle,
    angle_to_horizontal self x = Ok angle /\
    (x + sqrt ((bx - x) ^ 2 + (b_y - iy) ^ 2) * cos angle,
     iy + sqrt ((bx - x) ^ 2 + (b_y - iy) ^ 2) * sin angle)
    = if Rle_dec x bx then point_b self else mirror_b self x.
Proof.
  destruct (Req_dec_T bx x) as [Heq | Hne].
  - exists (PI / 2 * np_sign (b_y - iy)).
    split; [now apply angle_to_horizontal_vertical |].
    destruct (Rle_dec x bx); [| lra].
    rewrite (surjective_pairing (point_b self)). fold bx b_y.
    replace (bx - x) with 0 by lra.
    replace (0 ^ 2 + (b_y - iy) ^ 2) with ((b_y - iy) ^ 2) by ring.
    destruct (Rlt_dec (b_y - iy) 0) as [Hneg | Hnneg].
    + rewrite np_sign_neg by exact Hneg.
      replace (PI / 2 * -1) with (- (PI / 2)) by lra.
      rewrite cos_neg, sin_neg, cos_PI2, sin_PI2.
      replace ((b_y - iy) ^ 2) with ((- (b_y - iy)) ^ 2) by ring.
      rewrite sqrt_pow2 by lra. f_equal; lra.
    + destruct (Rlt_dec 0 (b_y - iy)) as [Hpos | Hnpos].
      * rewrite np_sign_pos by exact Hpos.
        replace (PI / 2 * 1) with (PI / 2) by lra.
        rewrite cos_PI2, sin_PI2, sqrt_pow2 by lra. f_equal; lra.
      * replace (b_y - iy) with 0 by lra.
        replace (0 ^ 2) with 0 by ring. rewrite sqrt_0. f_equal; lra.
  - exists (atan ((b_y - iy) / (bx - x))).
    split; [now apply angle_to_horizontal_slanted |].
    assert (Hd : bx - x <> 0) by lra.
    rewrite (proj_cos_atan _ _ Hd), (proj_sin_atan _ _ Hd).
    destruct (Rle_dec x bx) as [Hle | Hgt].
    + rewrite Rabs_pos_eq by lra.
      rewrite (surjective_pairing (point_b self)). fold bx b_y.
      f_equal; [lra | field; exact Hd].
    + rewrite Rabs_left by lra. unfold mirror_b. fold bx b_y iy.
      f_equal; [lra | field; exact Hd].
Qed.

(** The whole path, when the ratio of the indices can be formed. *)
Lemma calculate_path_value :
  refractive_index_2 self <> 0 ->
  calculate_path minimize self =
    Ok [point_a self;
        (crossing minimize self, iy);
        (if Rle_dec (crossing minimize self) bx
         then point_b self else mirror_b self (crossing minimize self));
        point_b self].
Proof.
  intros Hn2. unfold calculate_path.
  rewrite calculate_optimal_path_crossing. cbn [bind].
  set (x := crossing minimize self).
  pose proof (incidence_point x) as Hinc.
  destruct (calculate_distance_and_incidence_angle self x) as [distance_1 incidence_angle].
  unfold calculate_refraction_angle.
  rewrite (float_div_nonzero _ _ Hn2). cbn [bind].
  rewrite math_asin_clip. cbn [bind].
  destruct (refraction_point x) as [angle [Hangle Hpoint]].
  rewrite Hangle. cbn [bind app].
  fold ax bx b_y iy. rewrite Hinc, Hpoint. reflexivity.
Qed.

(** With a zero second index, forming the ratio of the indices raises. *)
Lemma calculate_path_zero_index :
  refractive_index_2 self = 0 ->
  calculate_path minimize self = Raise ZeroDivisionError.
Proof.
  intros Hn2. unfold calculate_path.
  rewrite calculate_optimal_path_crossing. cbn [bind].
  destruct (calculate_distance_and_incidence_angle self _).
  unfold calculate_refraction_angle.
  rewrite Hn2, float_div_zero. reflexivity.
Qed.

End PathShape.

(** ** Construction *)

Lemma init_nonzero (c v1 v2 : R) (a b : Point) (iy : R) (size : R * R) :
  v1 <> 0 -> v2 <> 0 ->
  init c v1 v2 a b iy size =
    Ok {| speed_of_light := c;
          refractive_index_1 := c / v1;
          refractive_index_2 := c / v2;
          point_a := a;
          point_b := b;
          interface_y := iy;
          plane_size := size |}.
Proof.
  intros H1 H2. unfold init.
  rewrite (float_div_nonzero _ _ H1). cbn [bind].
  rewrite (float_div_nonzero _ _ H2). reflexivity.
Qed.

Lemma init_zero_speed (c v1 v2 : R) (a b : Point) (iy : R) (size : R * R) :
  v1 = 0 \/ v2 = 0 ->
  init c v1 v2 a b iy size = Raise ZeroDivisionError.
Proof.
  intros Hz. unfold init.
  destruct (Req_dec_T v1 0) as [-> | H1].
  - rewrite float_div_zero. reflexivity.
  - destruct Hz as [Hz | ->]; [contradiction |].
    rewrite (float_div_nonzero _ _ H1). cbn [bind].
    rewrite float_div_zero. reflexivity.
Qed.

(** What a successful construction stored. *)
Lemma init_ok_inv (c v1 v2 : R) (a b : Point) (iy : R) (size : R * R)
    (self : PathSimulator) :
  init c v1 v2 a b iy size = Ok self ->
  v1 <> 0 /\ v2 <> 0 /\
  speed_of_light self = c /\
  refractive_index_1 self = c / v1 /\
  refractive_index_2 self = c / v2 /\
  point_a self = a /\ point_b self = b /\ interface_y self = iy.
Proof.
  intros Hinit.
  destruct (Req_dec_T v1 0) as [H1 | H1].
  { rewrite init_zero_speed in Hinit by (left; exact H1). discriminate. }
  destruct (Req_dec_T v2 0) as [H2 | H2].
  { rewrite init_zero_speed in Hinit by (right; exact H2). discriminate. }
  rewrite (init_nonzero _ _ _ _ _ _ _ H1 H2) in Hinit.
  injection Hinit as <-. cbn. repeat split; assumption.
Qed.

Lemma div_nonzero (c v : R) : c <> 0 -> v <> 0 -> c / v <> 0.
Proof.
  intros Hc Hv Hq. apply Hc.
  replace c with (c / v * v) by (field; exact Hv). rewrite Hq. ring.
Qed.

(** C2 (as the code has it): the constructor checks nothing.  A zero medium
    speed makes the division that forms a refractive index raise
    ZeroDivisionError; every other triple of speeds, negative medium speeds
    and a non-positive reference speed included, constructs the simulator
    with the two quotients as indices. *)
Theorem init_raises_only_on_zero_speed
    (c v1 v2 : R) (a b : Point) (iy : R) (size : R * R) :
  (v1 = 0 \/ v2 = 0 -> init c v1 v2 a b iy size = Raise ZeroDivisionError) /\
  (v1 <> 0 -> v2 <> 0 ->
   init c v1 v2 a b iy size =
     Ok {| speed_of_light := c;
           refractive_index_1 := c / v1;
           refractive_index_2 := c / v2;
           point_a := a;
           point_b := b;
           interface_y := iy;
           plane_size := size |}).
Proof.
  split.
  - apply init_zero_speed.
  - apply init_nonzero.
Qed.

Lemma init_raises_only_on_zero_speed_witness :
  init 1 0 1 (0, 10) (10, -10) 0 (20, 20) = Raise ZeroDivisionError /\
  init 1 1 1 (0, 10) (10, -10) 0 (20, 20) = Ok symmetric_sim.
Proof.
  destruct (init_raises_only_on_zero_speed 1 0 1 (0, 10) (10, -10) 0 (20, 20))
    as [Hzero _].
  destruct (init_raises_only_on_zero_speed 1 1 1 (0, 10) (10, -10) 0 (20, 20))
    as [_ Hok].
  split.
  - apply Hzero. left. reflexivity.
  - apply Hok; apply R1_neq_R0.
Defined.

(** C2 fails on the code: a negative medium speed, a zero reference speed and
    a negative reference speed are all accepted by the constructor. *)
Lemma init_accepts_non_positive_speeds :
  (exists self, init 1 (-1) 1 (0, 10) (10, -10) 0 (20, 20) = Ok self) /\
  (exists self, init 0 1 1 (0, 10) (10, -10) 0 (20, 20) = Ok self) /\
  (exists self, init (-1) 1 1 (0, 10) (10, -10) 0 (20, 20) = Ok self).
Proof.
  repeat split; eexists; apply init_nonzero; lra.
Qed.

(** ** The minimizer call *)

(** C3 (as the code has it): [calculate_optimal_path] never fails.  It
    returns the solution field of what the minimizer returned and does not
    read the success flag: the same minimizer reporting any other flag gives
    the same answer. *)
Theorem calculate_optimal_path_ignores_success
    (minimize : minimizer) (self : PathSimulator) :
  calculate_optimal_path minimize self
    = Ok (res_x (optimal_path_result minimize self)) /\
  (forall e, calculate_optimal_path minimize self <> Raise e) /\
  (forall flag,
     res_success (optimal_path_result (reporting flag minimize) self) = flag /\
     calculate_optimal_path (reporting flag minimize) self
       = calculate_optimal_path minimize self).
Proof.
  split; [reflexivity |]. split; [discriminate |].
  intros flag. split; reflexivity.
Qed.

(** C3 fails on the code: with a minimizer that reports failure, the
    non-converged estimate is returned as the answer. *)
Lemma calculate_optimal_path_returns_unconverged :
  res_success (optimal_path_result stalled_minimize symmetric_sim) = false /\
  calculate_optimal_path stalled_minimize symmetric_sim = Ok 0.
Proof. split; reflexivity. Qed.

(** ** The concrete simulators, run *)

Lemma Rmin_0_10 : Rmin 0 10 = 0.
Proof. apply Rmin_left. lra. Qed.

Lemma Rmax_0_10 : Rmax 0 10 = 10.
Proof. apply Rmax_right. lra. Qed.

Lemma Rmin_10_0 : Rmin 10 0 = 0.
Proof. apply Rmin_right. lra. Qed.

Lemma Rmax_10_0 : Rmax 10 0 = 10.
Proof. apply Rmax_left. lra. Qed.

Lemma crossing_symmetric : crossing midpoint_minimize symmetric_sim = 5.
Proof.
  unfold crossing, optimal_path_result, midpoint_minimize. cbn.
  rewrite Rmin_0_10, Rmax_0_10. lra.
Qed.

Lemma crossing_leftward : crossing midpoint_minimize leftward_sim = 5.
Proof.
  unfold crossing, optimal_path_result, midpoint_minimize. cbn.
  rewrite Rmin_10_0, Rmax_10_0. lra.
Qed.

Lemma crossing_steep : crossing midpoint_minimize steep_sim = 5.
Proof.
  unfold crossing, optimal_path_result, midpoint_minimize. cbn.
  rewrite Rmin_0_10, Rmax_0_10. lra.
Qed.

Lemma symmetric_index_nonzero : refractive_index_2 symmetric_sim <> 0.
Proof. cbn. lra. Qed.

Lemma leftward_index_nonzero : refractive_index_2 leftward_sim <> 0.
Proof. cbn. lra. Qed.

Lemma steep_index_nonzero : refractive_index_2 steep_sim <> 0.
Proof. cbn. lra. Qed.

Lemma symmetric_path :
  calculate_path midpoint_minimize symmetric_sim
    = Ok [(0, 10); (5, 0); (10, -10); (10, -10)].
Proof.
  rewrite (calculate_path_value _ _ symmetric_index_nonzero), crossing_symmetric.
  cbn. destruct (Rle_dec 5 10); [reflexivity | lra].
Qed.

Lemma leftward_path :
  calculate_path midpoint_minimize leftward_sim
    = Ok [(10, 10); (5, 0); (10, 10); (0, -10)].
Proof.
  rewrite (calculate_path_value _ _ leftward_index_nonzero), crossing_leftward.
  cbn. destruct (Rle_dec 5 0); [lra |].
  unfold mirror_b. cbn. repeat f_equal; lra.
Qed.

(** ** The shape of the path *)


(** C4: for positive speeds the simulator is constructed and
    [calculate_path] returns a path of exactly four points, the first being
    A and the last being B. *)
Theorem calculate_path_endpoints
    (minimize : minimizer) (c v1 v2 : R) (a b : Point) (iy : R) (size : R * R) :
  0 < c -> 0 < v1 -> 0 < v2 ->
  exists self path,
    init c v1 v2 a b iy size = Ok self /\
    calculate_path minimize self = Ok path /\
    length path = 4%nat /\
    nth 0 path (0, 0) = a /\
    nth 3 path (0, 0) = b.
Proof.
  intros Hc H1 H2.
  assert (Hv1 : v1 <> 0) by lra. assert (Hv2 : v2 <> 0) by lra.
  eexists. eexists. split; [apply (init_nonzero _ _ _ _ _ _ _ Hv1 Hv2) |].
  split.
  - apply calculate_path_value. cbn. apply div_nonzero; lra.
  - cbn. auto.
Qed.

Lemma calculate_path_endpoints_witness :
  exists self path,
    init 1 1 1 (0, 10) (10, -10) 0 (20, 20) = Ok self /\
    calculate_path midpoint_minimize self = Ok path /\
    length path = 4%nat /\
    nth 0 path (0, 0) = (0, 10) /\
    nth 3 path (0, 0) = (10, -10).
Proof.
  apply (calculate_path_endpoints midpoint_minimize 1 1 1); lra.
Defined.




(** C10: when the ratio of the indices can be formed, the third point of the
    path is B itself if B lies strictly right of the crossing, so that the
    last segment has no length, and the mirror image of B through the
    crossing point if B lies strictly left of it. *)
Theorem calculate_path_third_point
    (minimize : minimizer) (self : PathSimulator) :
  refractive_index_2 self <> 0 ->
  exists incidence,
    (crossing minimize self < fst (point_b self) ->
     calculate_path minimize self
       = Ok [point_a self; incidence; point_b self; point_b self]) /\
    (fst (point_b self) < crossing minimize self ->
     calculate_path minimize self
       = Ok [point_a self; incidence;
             (2 * crossing minimize self - fst (point_b self),
              2 * interface_y self - snd (point_b self));
             point_b self]).
Proof.
  intros Hn2. exists (crossing minimize self, interface_y self).
  rewrite (calculate_path_value _ _ Hn2).
  destruct (Rle_dec (crossing minimize self) (fst (point_b self))) as [Hle | Hgt].
  - split; [reflexivity | lra].
  - split; [lra | reflexivity].
Qed.

Lemma calculate_path_third_point_witness :
  (exists incidence,
     calculate_path midpoint_minimize symmetric_sim
       = Ok [(0, 10); incidence; (10, -10); (10, -10)]) /\
  (exists incidence,
     calculate_path midpoint_minimize leftward_sim
       = Ok [(10, 10); incidence;
             (2 * crossing midpoint_minimize leftward_sim - 0, 2 * 0 - -10);
             (0, -10)]).
Proof.
  split.
  - destruct (calculate_path_third_point midpoint_minimize symmetric_sim
                symmetric_index_nonzero) as [incidence [Hright _]].
    exists incidence. apply Hright. rewrite crossing_symmetric. cbn. lra.
  - destruct (calculate_path_third_point midpoint_minimize leftward_sim
                leftward_index_nonzero) as [incidence [_ Hleft]].
    exists incidence. apply Hleft. rewrite crossing_leftward. cbn. lra.
Defined.

(** ** The refraction angle *)

Lemma asin_minus_1 : asin (-1) = - (PI / 2).
Proof. unfold asin. destruct (Rle_dec (-1) (-1)); [reflexivity | lra]. Qed.

Lemma np_clip_above (a : R) : 1 < a -> np_clip a (-1) 1 = 1.
Proof.
  intros Ha. unfold np_clip, Rmin, Rmax.
  destruct (Rle_dec a (-1)); destruct (Rle_dec 1 _); lra.
Qed.

Lemma np_clip_below (a : R) : a < -1 -> np_clip a (-1) 1 = -1.
Proof.
  intros Ha. unfold np_clip, Rmin, Rmax.
  destruct (Rle_dec a (-1)); destruct (Rle_dec 1 _); lra.
Qed.

Lemma calculate_refraction_angle_value (self : PathSimulator) (incidence_angle : R) :
  refractive_index_2 self <> 0 ->
  calculate_refraction_angle self incidence_angle
    = Ok (asin (np_clip (refractive_index_1 self / refractive_index_2 self
                         * sin incidence_angle) (-1) 1)).
Proof.
  intros Hn2. unfold calculate_refraction_angle.
  rewrite (float_div_nonzero _ _ Hn2). cbn [bind]. apply math_asin_clip.
Qed.

(** C8 (as the code has it): the refraction sine is clamped to [-1, 1]
    before the inverse sine, so [math.asin] never sees a value outside its
    domain.  On a simulator constructed with a non-zero reference speed,
    total internal reflection included, nothing is raised: the refraction
    angle is the inverse sine of the clamped value, in [-pi/2, pi/2], +pi/2
    or -pi/2 when the unclamped sine is beyond 1 or -1, and [calculate_path]
    returns its four points.  On a simulator constructed with the reference
    speed zero, both indices are zero and forming their ratio raises
    ZeroDivisionError, in the refraction angle and so in [calculate_path]. *)
Theorem calculate_path_clamps_refraction_sine
    (minimize : minimizer) (c v1 v2 : R) (a b : Point) (iy : R) (size : R * R)
    (self : PathSimulator) (incidence_angle : R) :
  init c v1 v2 a b iy size = Ok self ->
  let sine_refraction :=
    refractive_index_1 self / refractive_index_2 self * sin incidence_angle in
  -1 <= np_clip sine_refraction (-1) 1 <= 1 /\
  math_asin (np_clip sine_refraction (-1) 1)
    = Ok (asin (np_clip sine_refraction (-1) 1)) /\
  (c <> 0 ->
   (exists refraction_angle,
      calculate_refraction_angle self incidence_angle = Ok refraction_angle /\
      refraction_angle = asin (np_clip sine_refraction (-1) 1) /\
      - (PI / 2) <= refraction_angle <= PI / 2 /\
      (1 < sine_refraction -> refraction_angle = PI / 2) /\
      (sine_refraction < -1 -> refraction_angle = - (PI / 2))) /\
   calculate_path minimize self
     = Ok [a;
           (crossing minimize self, iy);
           (if Rle_dec (crossing minimize self) (fst b)
            then b else mirror_b self (crossing minimize self));
           b]) /\
  (c = 0 ->
   calculate_refraction_angle self incidence_angle = Raise ZeroDivisionError /\
   calculate_path minimize self = Raise ZeroDivisionError).
Proof.
  intros Hinit sine_refraction.
  apply init_ok_inv in Hinit as (_ & Hv2 & _ & _ & Hn2 & Ha & Hb & Hiy).
  split; [apply np_clip_range |].
  split; [apply math_asin_clip |].
  split.
  - intros Hc.
    assert (Hnz : refractive_index_2 self <> 0).
    { rewrite Hn2. apply div_nonzero; assumption. }
    split.
    + exists (asin (np_clip sine_refraction (-1) 1)).
      split; [apply (calculate_refraction_angle_value _ _ Hnz) |].
      split; [reflexivity |].
      split; [apply asin_bound |].
      split; intros Hout.
      * rewrite np_clip_above by exact Hout. apply asin_1.
      * rewrite np_clip_below by exact Hout. apply asin_minus_1.
    + rewrite (calculate_path_value _ _ Hnz), Ha, Hb, Hiy. reflexivity.
  - intros ->.
    assert (Hz : refractive_index_2 self = 0).
    { rewrite Hn2. unfold Rdiv. ring. }
    split.
    + unfold calculate_refraction_angle. rewrite Hz, float_div_zero. reflexivity.
    + apply (calculate_path_zero_index _ _ Hz).
Qed.

(** ** The direction of the second segment *)

(** C9: the direction angle is always computed, the division by
    B.x - x never having a zero divisor.  On a vertical second segment
    (B.x = x) it is pi/2 times the sign of B.y - interface_y: +pi/2 for B
    above the interface and -pi/2 for B below it.  Otherwise it is the
    arctangent of the slope. *)
Theorem angle_to_horizontal_cases (self : PathSimulator) (x : R) :
  (exists angle, angle_to_horizontal self x = Ok angle) /\
  (fst (point_b self) = x ->
   angle_to_horizontal self x
     = Ok (PI / 2 * np_sign (snd (point_b self) - interface_y self)) /\
   (interface_y self < snd (point_b self) ->
    angle_to_horizontal self x = Ok (PI / 2)) /\
   (snd (point_b self) < interface_y self ->
    angle_to_horizontal self x = Ok (- (PI / 2)))) /\
  (fst (point_b self) <> x ->
   fst (point_b self) - x <> 0 /\
   angle_to_horizontal self x
     = Ok (atan ((snd (point_b self) - interface_y self)
                 / (fst (point_b self) - x)))).
Proof.
  split; [| split].
  - destruct (Req_dec_T (fst (point_b self)) x) as [Heq | Hne].
    + eexists. apply (angle_to_horizontal_vertical _ _ Heq).
    + eexists. apply (angle_to_horizontal_slanted _ _ Hne).
  - intros Heq. rewrite (angle_to_horizontal_vertical _ _ Heq).
    split; [reflexivity |]. split; intros Hy.
    + rewrite np_sign_pos by lra. f_equal. lra.
    + rewrite np_sign_neg by lra. f_equal. lra.
  - intros Hne. split; [lra |]. apply (angle_to_horizontal_slanted _ _ Hne).
Qed.

Lemma angle_to_horizontal_cases_witness :
  angle_to_horizontal symmetric_sim 10 = Ok (- (PI / 2)) /\
  angle_to_horizontal symmetric_sim 5 = Ok (atan ((-10 - 0) / (10 - 5))).
Proof.
  split.
  - destruct (angle_to_horizontal_cases symmetric_sim 10) as [_ [Hvertical _]].
    destruct (Hvertical eq_refl) as [_ [_ Hbelow]].
    apply Hbelow. cbn. lra.
  - destruct (angle_to_horizontal_cases symmetric_sim 5) as [_ [_ Hslanted]].
    apply Hslanted. cbn. lra.
Defined.

Lemma steep_incidence_angle :
  snd (calculate_distance_and_incidence_angle steep_sim 5) = atan (-2).
Proof.
  unfold calculate_distance_and_incidence_angle, atan2. cbn.
  destruct (Rlt_dec 0 (5 - 0)); [| lra]. f_equal. lra.
Qed.

Lemma steep_sine_below :
  refractive_index_1 steep_sim / refractive_index_2 steep_sim * sin (atan (-2)) < -1.
Proof.
  rewrite sin_atan. cbn.
  pose proof (sqrt_one_plus_sqr_pos (-2)) as Hpos.
  assert (Hsq : sqrt (1 + (-2)²) * sqrt (1 + (-2)²) = 5).
  { rewrite sqrt_sqrt; unfold Rsqr; lra. }
  set (s := sqrt (1 + (-2)²)) in *.
  assert (Hs : s < 4) by nra.
  replace (2 / 1 / (2 / 2) * (-2 / s)) with (- (4 * / s)) by (field; lra).
  assert (1 < 4 * / s); [| lra].
  apply Rmult_lt_reg_r with s; [lra |].
  rewrite Rmult_assoc, Rinv_l; lra.
Qed.

Lemma init_steep : init 2 1 2 (0, 10) (10, -10) 0 (20, 20) = Ok steep_sim.
Proof. apply init_nonzero; lra. Qed.

Lemma calculate_path_clamps_refraction_sine_witness :
  calculate_refraction_angle steep_sim
    (snd (calculate_distance_and_incidence_angle steep_sim 5))
    = Ok (- (PI / 2)) /\
  calculate_path midpoint_minimize steep_sim
    = Ok [(0, 10); (5, 0); (10, -10); (10, -10)].
Proof.
  rewrite steep_incidence_angle.
  assert (Hc : (2 : R) <> 0) by lra.
  destruct (calculate_path_clamps_refraction_sine midpoint_minimize
              2 1 2 (0, 10) (10, -10) 0 (20, 20) steep_sim (atan (-2)) init_steep)
    as (_ & _ & Hok & _).
  destruct (Hok Hc) as [[refraction_angle [Hvalue [_ [_ [_ Hbelow]]]]] Hpath].
  split.
  - rewrite Hvalue. f_equal. apply Hbelow. exact steep_sine_below.
  - rewrite Hpath, crossing_steep. cbn [fst].
    destruct (Rle_dec 5 10); [reflexivity | lra].
Defined.

(** C8 fails on the code: the constructor accepts the reference speed 0,
    and [calculate_path] then raises ZeroDivisionError when it forms the
    ratio of the two indices. *)
Lemma calculate_path_raises_on_zero_reference_speed :
  exists self,
    init 0 1 2 (0, 10) (10, -10) 0 (20, 20) = Ok self /\
    calculate_path midpoint_minimize self = Raise ZeroDivisionError.
Proof.
  eexists. split; [apply init_nonzero; lra |].
  apply calculate_path_zero_index. cbn. unfold Rdiv. ring.
Qed.

(** ** Travel time *)

Lemma time_to_travel_value (self : PathSimulator) (x : R) :
  time_to_travel self x =
    sqrt ((x - fst (point_a self)) ^ 2 + (interface_y self - snd (point_a self)) ^ 2)
      / speed_of_light self * refractive_index_1 self
    + sqrt ((fst (point_b self) - x) ^ 2 + (snd (point_b self) - interface_y self) ^ 2)
      / speed_of_light self * refractive_index_2 self.
Proof. reflexivity. Qed.

Lemma time_to_travel_by_speeds
    (c v1 v2 : R) (a b : Point) (iy : R) (size : R * R)
    (self : PathSimulator) (x : R) :
  c <> 0 ->
  init c v1 v2 a b iy size = Ok self ->
  time_to_travel self x =
    sqrt ((x - fst a) ^ 2 + (iy - snd a) ^ 2) / v1
    + sqrt ((fst b - x) ^ 2 + (snd b - iy) ^ 2) / v2.
Proof.
  intros Hc Hinit.
  apply init_ok_inv in Hinit as (H1 & H2 & Hsl & Hn1 & Hn2 & Ha & Hb & Hiy).
  rewrite time_to_travel_value, Hsl, Hn1, Hn2, Ha, Hb, Hiy.
  field. repeat split; assumption.
Qed.

(** C6: the travel time is distance_1 * index_1 / c + distance_2 * index_2 / c
    with index_i = c / speed_i; for a non-zero reference speed c this is
    distance_1 / speed_1 + distance_2 / speed_2, so two simulators that
    differ only in the reference speed have the same travel time. *)
Theorem time_to_travel_formula
    (c c' v1 v2 : R) (a b : Point) (iy : R) (size : R * R)
    (self self' : PathSimulator) (x : R) :
  c <> 0 -> c' <> 0 ->
  init c v1 v2 a b iy size = Ok self ->
  init c' v1 v2 a b iy size = Ok self' ->
  let distance_1 := sqrt ((x - fst a) ^ 2 + (iy - snd a) ^ 2) in
  let distance_2 := sqrt ((fst b - x) ^ 2 + (snd b - iy) ^ 2) in
  refractive_index_1 self = c / v1 /\
  refractive_index_2 self = c / v2 /\
  time_to_travel self x =
    distance_1 * refractive_index_1 self / c
    + distance_2 * refractive_index_2 self / c /\
  time_to_travel self x = distance_1 / v1 + distance_2 / v2 /\
  time_to_travel self' x = time_to_travel self x.
Proof.
  intros Hc Hc' Hinit Hinit' distance_1 distance_2.
  pose proof (time_to_travel_by_speeds _ _ _ _ _ _ _ _ x Hc Hinit) as Ht.
  pose proof (time_to_travel_by_speeds _ _ _ _ _ _ _ _ x Hc' Hinit') as Ht'.
  apply init_ok_inv in Hinit as (H1 & H2 & Hsl & Hn1 & Hn2 & Ha & Hb & Hiy).
  split; [exact Hn1 |]. split; [exact Hn2 |].
  split; [| split].
  - rewrite time_to_travel_value, Hsl, Ha, Hb, Hiy.
    fold distance_1 distance_2. unfold Rdiv. ring.
  - exact Ht.
  - rewrite Ht, Ht'. reflexivity.
Qed.

Lemma time_to_travel_formula_witness :
  exists self self',
    init 1 1 2 (0, 10) (10, -10) 0 (20, 20) = Ok self /\
    init 2 1 2 (0, 10) (10, -10) 0 (20, 20) = Ok self' /\
    time_to_travel self 5 =
      sqrt ((5 - 0) ^ 2 + (0 - 10) ^ 2) / 1
      + sqrt ((10 - 5) ^ 2 + (-10 - 0) ^ 2) / 2 /\
    time_to_travel self' 5 = time_to_travel self 5.
Proof.
  assert (H1 : (1 : R) <> 0) by lra.
  assert (H2 : (2 : R) <> 0) by lra.
  pose proof (init_nonzero 1 1 2 (0, 10) (10, -10) 0 (20, 20) H1 H2) as Hinit.
  pose proof (init_nonzero 2 1 2 (0, 10) (10, -10) 0 (20, 20) H1 H2) as Hinit'.
  eexists. eexists.
  split; [exact Hinit |]. split; [exact Hinit' |].
  destruct (time_to_travel_formula 1 2 1 2 (0, 10) (10, -10) 0 (20, 20) _ _ 5
              H1 H2 Hinit Hinit') as (_ & _ & _ & Hspeeds & Hsame).
  split; [exact Hspeeds | exact Hsame].
Defined.

(** ** The search interval *)

Lemma midpoint_within_bounds : within_bounds midpoint_minimize.
Proof.
  intros f x0 lo hi Hle. unfold midpoint_minimize. cbn. lra.
Qed.

(** C7: with a minimizer that keeps its solution inside the bounds it is
    given, as L-BFGS-B does, [calculate_optimal_path] returns the solution of
    the search started from A.x over [min(A.x, B.x), max(A.x, B.x)], that
    solution lies in this closed interval, and when A.x = B.x it is exactly
    that x. *)
Theorem calculate_optimal_path_within_bounds
    (minimize : minimizer) (self : PathSimulator) :
  within_bounds minimize ->
  let ax := fst (point_a self) in
  let bx := fst (point_b self) in
  exists x,
    calculate_optimal_path minimize self = Ok x /\
    x = res_x (minimize (time_to_travel self) ax (Rmin ax bx, Rmax ax bx)) /\
    Rmin ax bx <= x <= Rmax ax bx /\
    (ax = bx -> x = ax).
Proof.
  intros Hbounds ax bx.
  exists (res_x (minimize (time_to_travel self) ax (Rmin ax bx, Rmax ax bx))).
  assert (Hle : Rmin ax bx <= Rmax ax bx).
  { apply Rle_trans with ax; [apply Rmin_l | apply Rmax_l]. }
  pose proof (Hbounds (time_to_travel self) ax _ _ Hle) as Hin.
  split; [reflexivity |]. split; [reflexivity |]. split; [exact Hin |].
  intros Heq.
  set (x := res_x (minimize (time_to_travel self) ax (Rmin ax bx, Rmax ax bx))) in *.
  unfold Rmin, Rmax in Hin. destruct (Rle_dec ax bx); lra.
Qed.

Lemma calculate_optimal_path_within_bounds_witness :
  exists x,
    calculate_optimal_path midpoint_minimize symmetric_sim = Ok x /\
    x = res_x (midpoint_minimize (time_to_travel symmetric_sim) 0
                 (Rmin 0 10, Rmax 0 10)) /\
    Rmin 0 10 <= x <= Rmax 0 10 /\
    ((0 : R) = 10 -> x = 0).
Proof.
  apply (calculate_optimal_path_within_bounds midpoint_minimize symmetric_sim).
  exact midpoint_within_bounds.
Defined.

(** ** The symmetric configuration *)

Lemma cauchy_gap (y a b : R) :
  0 <= a -> 0 <= b ->
  a * a = y ^ 2 + 100 -> b * b = (10 - y) ^ 2 + 100 ->
  (a + b) * (a + b) <= 500 -> y = 5.
Proof.
  intros Ha Hb Haa Hbb Hsum.
  assert (Hab : a * b <= 100 + y * (10 - y)) by nra.
  assert (Hab0 : 0 <= a * b) by (apply Rmult_le_pos; assumption).
  assert (Hsq : (a * b) * (a * b) <= (100 + y * (10 - y)) * (100 + y * (10 - y))).
  { apply Rmult_le_compat; lra. }
  assert (Hprod : (a * b) * (a * b) = (y ^ 2 + 100) * ((10 - y) ^ 2 + 100)).
  { rewrite <- Haa, <- Hbb. ring. }
  assert (Hz : (2 * y - 10) * (2 * y - 10) <= 0) by nra.
  nra.
Qed.

Lemma cauchy_bound (y a b : R) :
  0 <= a -> 0 <= b ->
  a * a = y ^ 2 + 100 -> b * b = (10 - y) ^ 2 + 100 ->
  500 <= (a + b) * (a + b).
Proof.
  intros Ha Hb Haa Hbb.
  destruct (Rle_lt_dec 500 ((a + b) * (a + b))) as [Hle | Hlt]; [exact Hle |].
  assert (Hy : y = 5) by (apply (cauchy_gap y a b); lra).
  subst y.
  assert (Heq : a = b).
  { assert (Hfac : (a - b) * (a + b) = 0) by lra.
    apply Rmult_integral in Hfac as [Hd | Hs]; [lra | nra]. }
  subst b. lra.
Qed.

Lemma symmetric_length_sqr (x : R) :
  0 <= symmetric_length x /\
  (symmetric_length x * symmetric_length x <= 500 -> x = 5) /\
  500 <= symmetric_length x * symmetric_length x.
Proof.
  unfold symmetric_length.
  assert (Ha : 0 <= (x - 0) ^ 2 + (0 - 10) ^ 2) by nra.
  assert (Hb : 0 <= (10 - x) ^ 2 + (-10 - 0) ^ 2) by nra.
  pose proof (sqrt_pos ((x - 0) ^ 2 + (0 - 10) ^ 2)) as Ha0.
  pose proof (sqrt_pos ((10 - x) ^ 2 + (-10 - 0) ^ 2)) as Hb0.
  pose proof (sqrt_sqrt _ Ha) as Haa.
  pose proof (sqrt_sqrt _ Hb) as Hbb.
  set (a := sqrt ((x - 0) ^ 2 + (0 - 10) ^ 2)) in *.
  set (b := sqrt ((10 - x) ^ 2 + (-10 - 0) ^ 2)) in *.
  split; [lra |]. split.
  - intros Hsum. apply (cauchy_gap x a b); lra.
  - apply (cauchy_bound x a b); lra.
Qed.

Lemma symmetric_length_min (x : R) : symmetric_length 5 <= symmetric_length x.
Proof.
  destruct (symmetric_length_sqr x) as (Hx0 & _ & Hx).
  destruct (symmetric_length_sqr 5) as (H50 & _ & H5).
  assert (H5' : symmetric_length 5 * symmetric_length 5 <= 500).
  { unfold symmetric_length.
    replace ((10 - 5) ^ 2 + (-10 - 0) ^ 2) with ((5 - 0) ^ 2 + (0 - 10) ^ 2) by ring.
    assert (Ha : 0 <= (5 - 0) ^ 2 + (0 - 10) ^ 2) by nra.
    pose proof (sqrt_sqrt _ Ha). nra. }
  nra.
Qed.

Lemma symmetric_length_unique (x : R) :
  symmetric_length x <= symmetric_length 5 -> x = 5.
Proof.
  intros Hle.
  destruct (symmetric_length_sqr x) as (Hx0 & Hgap & _).
  destruct (symmetric_length_sqr 5) as (H50 & _ & _).
  apply Hgap.
  assert (H5' : symmetric_length 5 * symmetric_length 5 <= 500).
  { unfold symmetric_length.
    replace ((10 - 5) ^ 2 + (-10 - 0) ^ 2) with ((5 - 0) ^ 2 + (0 - 10) ^ 2) by ring.
    assert (Ha : 0 <= (5 - 0) ^ 2 + (0 - 10) ^ 2) by nra.
    pose proof (sqrt_sqrt _ Ha). nra. }
  nra.
Qed.

Lemma symmetric_time (c v : R) (size : R * R) (self : PathSimulator) (x : R) :
  c <> 0 ->
  init c v v (0, 10) (10, -10) 0 size = Ok self ->
  time_to_travel self x = symmetric_length x / v.
Proof.
  intros Hc Hinit.
  rewrite (time_to_travel_by_speeds _ _ _ _ _ _ _ _ x Hc Hinit).
  unfold symmetric_length. cbn [fst snd].
  apply init_ok_inv in Hinit as (Hv & _). field. exact Hv.
Qed.

Lemma init_symmetric :
  init 1 1 1 (0, 10) (10, -10) 0 (20, 20) = Ok symmetric_sim.
Proof. apply init_nonzero; lra. Qed.

Lemma midpoint_finds_minimum : finds_minimum midpoint_minimize symmetric_sim.
Proof.
  unfold finds_minimum. rewrite crossing_symmetric. cbn [symmetric_sim point_a point_b fst].
  rewrite Rmin_0_10, Rmax_0_10.
  split; [lra |]. intros y _.
  rewrite !(symmetric_time 1 1 (20, 20) symmetric_sim _ R1_neq_R0 init_symmetric).
  pose proof (symmetric_length_min y). lra.
Qed.

(** C5 (as the code has it): for A = (0, 10), B = (10, -10), the interface
    at 0 and equal positive speeds, a minimizer that returns a minimum of the
    travel time over the search interval returns 5; the second point of the
    path is (5, 0) and the third point is B = (10, -10). *)
Theorem symmetric_crossing_and_path
    (minimize : minimizer) (c v : R) (size : R * R) (self : PathSimulator) :
  0 < c -> 0 < v ->
  init c v v (0, 10) (10, -10) 0 size = Ok self ->
  finds_minimum minimize self ->
  calculate_optimal_path minimize self = Ok 5 /\
  calculate_path minimize self = Ok [(0, 10); (5, 0); (10, -10); (10, -10)].
Proof.
  intros Hc Hv Hinit Hmin.
  assert (Hc0 : c <> 0) by lra.
  assert (Hx : crossing minimize self = 5).
  { destruct Hmin as [_ Hmin].
    pose proof (init_ok_inv _ _ _ _ _ _ _ _ Hinit)
      as (_ & _ & _ & _ & _ & Ha & Hb & _).
    rewrite Ha, Hb in Hmin. cbn [fst] in Hmin.
    rewrite Rmin_0_10, Rmax_0_10 in Hmin.
    assert (H5 : 0 <= 5 <= 10) by lra.
    specialize (Hmin 5 H5).
    rewrite !(symmetric_time c v size self _ Hc0 Hinit) in Hmin.
    apply symmetric_length_unique.
    apply Rmult_le_reg_r with (/ v); [apply Rinv_0_lt_compat; exact Hv |].
    exact Hmin. }
  split.
  - rewrite calculate_optimal_path_crossing, Hx. reflexivity.
  - pose proof (init_ok_inv _ _ _ _ _ _ _ _ Hinit)
      as (Hv1 & _ & _ & _ & Hn2 & Ha & Hb & Hiy).
    rewrite calculate_path_value by (rewrite Hn2; apply div_nonzero; assumption).
    rewrite Hx, Ha, Hb, Hiy. cbn [fst].
    destruct (Rle_dec 5 10); [reflexivity | lra].
Qed.

Lemma symmetric_crossing_and_path_witness :
  calculate_optimal_path midpoint_minimize symmetric_sim = Ok 5 /\
  calculate_path midpoint_minimize symmetric_sim
    = Ok [(0, 10); (5, 0); (10, -10); (10, -10)].
Proof.
  apply (symmetric_crossing_and_path midpoint_minimize 1 1 (20, 20) symmetric_sim).
  - lra.
  - lra.
  - exact init_symmetric.
  - exact midpoint_finds_minimum.
Defined.

(** C5 fails on the code: in the symmetric configuration, with the
    minimizer at the true minimum 5, the third point of the path is
    (10, -10) and not (5, 0). *)
Lemma symmetric_third_point_is_not_crossing :
  init 1 1 1 (0, 10) (10, -10) 0 (20, 20) = Ok symmetric_sim /\
  finds_minimum midpoint_minimize symmetric_sim /\
  calculate_optimal_path midpoint_minimize symmetric_sim = Ok 5 /\
  exists path,
    calculate_path midpoint_minimize symmetric_sim = Ok path /\
    nth 2 path (0, 0) <> (5, 0).
Proof.
  split; [exact init_symmetric |].
  split; [exact midpoint_finds_minimum |].
  split; [rewrite calculate_optimal_path_crossing, crossing_symmetric; reflexivity |].
  eexists. split; [exact symmetric_path |].
  cbn. intros Heq. injection Heq as Hx _. lra.
Qed.

(** * Further properties of the simulator *)

(** ** Distance and incidence angle *)

Lemma sqrt_sum_sqr (d e : R) :
  0 <= sqrt (d ^ 2 + e ^ 2) /\
  sqrt (d ^ 2 + e ^ 2) * sqrt (d ^ 2 + e ^ 2) = d * d + e * e.
Proof.
  split; [apply sqrt_pos |]. rewrite sqrt_sqrt; nra.
Qed.

Lemma sqrt_sum_sqr_zero (d e : R) :
  sqrt (d ^ 2 + e ^ 2) = 0 <-> d = 0 /\ e = 0.
Proof.
  destruct (sqrt_sum_sqr d e) as [_ Hsq]. split.
  - intros Hz. rewrite Hz in Hsq. split; nra.
  - intros [-> ->]. replace (0 ^ 2 + 0 ^ 2) with 0 by ring. apply sqrt_0.
Qed.

(** The distance is not negative and vanishes only when A is the point of
    the interface asked for; going from A by that distance along the
    incidence angle arrives exactly at the point [(x_interface, interface_y)]
    of the interface. *)
Theorem incidence_polar_round_trip (self : PathSimulator) (x_interface : R) :
  let '(distance_1, incidence_angle) :=
    calculate_distance_and_incidence_angle self x_interface in
  0 <= distance_1 /\
  (distance_1 = 0 <->
   x_interface = fst (point_a self) /\ interface_y self = snd (point_a self)) /\
  fst (point_a self) + distance_1 * cos incidence_angle = x_interface /\
  snd (point_a self) + distance_1 * sin incidence_angle = interface_y self.
Proof.
  unfold calculate_distance_and_incidence_angle. cbv zeta.
  split; [apply sqrt_pos |]. split; [| split].
  - rewrite sqrt_sum_sqr_zero. split; intros [H1 H2]; split; lra.
  - rewrite proj_cos_atan2. ring.
  - rewrite proj_sin_atan2. ring.
Qed.

Lemma atan_pos (s : R) : 0 < s -> 0 < atan s.
Proof. intros Hs. rewrite <- atan_0. apply atan_increasing. exact Hs. Qed.

Lemma atan_neg (s : R) : s < 0 -> atan s < 0.
Proof. intros Hs. rewrite <- atan_0. apply atan_increasing. exact Hs. Qed.

Lemma div_sign_pos_neg (y x : R) : 0 < y -> x < 0 -> y / x < 0.
Proof.
  intros Hy Hx. unfold Rdiv.
  assert (/ x < 0) by (apply Rinv_lt_0_compat; exact Hx). nra.
Qed.

Lemma div_sign_neg_neg (y x : R) : y < 0 -> x < 0 -> 0 < y / x.
Proof.
  intros Hy Hx. unfold Rdiv.
  assert (/ x < 0) by (apply Rinv_lt_0_compat; exact Hx). nra.
Qed.

Lemma div_sign_pos_pos (y x : R) : 0 < y -> 0 < x -> 0 < y / x.
Proof. intros Hy Hx. apply Rdiv_lt_0_compat; assumption. Qed.

Lemma div_sign_neg_pos (y x : R) : y < 0 -> 0 < x -> y / x < 0.
Proof.
  intros Hy Hx. unfold Rdiv.
  assert (0 < / x) by (apply Rinv_0_lt_compat; exact Hx). nra.
Qed.

Lemma atan2_range (y x : R) :
  - PI < atan2 y x <= PI /\
  (y < 0 -> - PI < atan2 y x < 0) /\
  (0 < y -> 0 < atan2 y x < PI).
Proof.
  pose proof PI_RGT_0 as Hpi.
  pose proof (atan_bound (y / x)) as [Hlo Hhi].
  unfold atan2.
  destruct (Rlt_dec 0 x) as [Hx | Hx].
  - split; [lra |]. split; intros Hy.
    + pose proof (atan_neg _ (div_sign_neg_pos _ _ Hy Hx)). lra.
    + pose proof (atan_pos _ (div_sign_pos_pos _ _ Hy Hx)). lra.
  - destruct (Rlt_dec x 0) as [Hx' | Hx'].
    + destruct (Rle_dec 0 y) as [Hy | Hy].
      * assert (Hle : atan (y / x) <= 0).
        { destruct Hy as [Hy | <-].
          - pose proof (atan_neg _ (div_sign_pos_neg _ _ Hy Hx')). lra.
          - unfold Rdiv. rewrite Rmult_0_l, atan_0. lra. }
        split; [lra |]. split; intros Hy'; [lra |].
        pose proof (atan_neg _ (div_sign_pos_neg _ _ Hy' Hx')). lra.
      * assert (Hy' : y < 0) by lra.
        pose proof (atan_pos _ (div_sign_neg_neg _ _ Hy' Hx')).
        split; [lra |]. split; intros; lra.
    + destruct (Rlt_dec 0 y) as [Hy | Hy]; [repeat split; intros; lra |].
      destruct (Rlt_dec y 0) as [Hy' | Hy']; repeat split; intros; lra.
Qed.

(** The incidence angle is measured from the horizontal axis and lies in
    (-pi, pi]; it is negative when A is above the interface and positive
    when A is below it. *)
Theorem incidence_angle_range (self : PathSimulator) (x_interface : R) :
  let incidence_angle :=
    snd (calculate_distance_and_incidence_angle self x_interface) in
  - PI < incidence_angle <= PI /\
  (interface_y self < snd (point_a self) -> - PI < incidence_angle < 0) /\
  (snd (point_a self) < interface_y self -> 0 < incidence_angle < PI).
Proof.
  unfold calculate_distance_and_incidence_angle. cbn [snd].
  destruct (atan2_range (interface_y self - snd (point_a self))
              (x_interface - fst (point_a self))) as (Hrange & Hneg & Hpos).
  split; [exact Hrange |]. split; intros Hy; [apply Hneg | apply Hpos]; lra.
Qed.

(** ** Travel time and its minimum *)

Lemma div_pos_nonneg (d v : R) : 0 <= d -> 0 < v -> 0 <= d / v.
Proof.
  intros Hd Hv. unfold Rdiv.
  assert (0 < / v) by (apply Rinv_0_lt_compat; exact Hv). nra.
Qed.

Lemma div_pos_zero (d v : R) : 0 < v -> d / v = 0 -> d = 0.
Proof.
  intros Hv Hz. replace d with (d / v * v) by (field; lra). rewrite Hz. ring.
Qed.

(** For positive medium speeds the travel time is never negative, and it is
    zero only when A and B are both the point of the interface asked for. *)
Theorem time_to_travel_nonneg
    (c v1 v2 : R) (a b : Point) (iy : R) (size : R * R)
    (self : PathSimulator) (x : R) :
  c <> 0 -> 0 < v1 -> 0 < v2 ->
  init c v1 v2 a b iy size = Ok self ->
  0 <= time_to_travel self x /\
  (time_to_travel self x = 0 <-> a = (x, iy) /\ b = (x, iy)).
Proof.
  intros Hc H1 H2 Hinit.
  rewrite (time_to_travel_by_speeds _ _ _ _ _ _ _ _ x Hc Hinit).
  pose proof (sqrt_pos ((x - fst a) ^ 2 + (iy - snd a) ^ 2)) as Hd1.
  pose proof (sqrt_pos ((fst b - x) ^ 2 + (snd b - iy) ^ 2)) as Hd2.
  pose proof (div_pos_nonneg _ _ Hd1 H1) as Ht1.
  pose proof (div_pos_nonneg _ _ Hd2 H2) as Ht2.
  split; [lra |]. split.
  - intros Hz.
    assert (Hz1 : sqrt ((x - fst a) ^ 2 + (iy - snd a) ^ 2) = 0).
    { apply (div_pos_zero _ v1 H1). lra. }
    assert (Hz2 : sqrt ((fst b - x) ^ 2 + (snd b - iy) ^ 2) = 0).
    { apply (div_pos_zero _ v2 H2). lra. }
    apply sqrt_sum_sqr_zero in Hz1 as [Hax Hay].
    apply sqrt_sum_sqr_zero in Hz2 as [Hbx Hby].
    rewrite (surjective_pairing a), (surjective_pairing b).
    split; f_equal; lra.
  - intros [-> ->]. cbn [fst snd].
    replace ((x - x) ^ 2 + (iy - iy) ^ 2) with 0 by ring.
    rewrite sqrt_0. unfold Rdiv. ring.
Qed.

Lemma time_to_travel_nonneg_witness :
  exists self,
    init 1 1 2 (0, 10) (10, -10) 0 (20, 20) = Ok self /\
    0 <= time_to_travel self 5.
Proof.
  assert (H1 : (1 : R) <> 0) by lra.
  assert (H2 : (2 : R) <> 0) by lra.
  pose proof (init_nonzero 1 1 2 (0, 10) (10, -10) 0 (20, 20) H1 H2) as Hinit.
  eexists. split; [exact Hinit |].
  apply (time_to_travel_nonneg 1 1 2 (0, 10) (10, -10) 0 (20, 20) _ 5);
    [lra | lra | lra | exact Hinit].
Defined.

Lemma minkowski_product (p q h1 h2 a b : R) :
  0 <= a -> 0 <= b ->
  a * a = p * p + h1 * h1 -> b * b = q * q + h2 * h2 ->
  p * q + h1 * h2 <= a * b /\
  (a * b <= p * q + h1 * h2 -> p * h2 = q * h1).
Proof.
  intros Ha Hb Haa Hbb.
  assert (Hab0 : 0 <= a * b) by (apply Rmult_le_pos; assumption).
  assert (Hid : (a * b) * (a * b)
                = (p * q + h1 * h2) * (p * q + h1 * h2)
                  + (p * h2 - q * h1) * (p * h2 - q * h1)).
  { replace ((a * b) * (a * b)) with ((a * a) * (b * b)) by ring.
    rewrite Haa, Hbb. ring. }
  pose proof (Rle_0_sqr (p * h2 - q * h1)) as Hsq. unfold Rsqr in Hsq.
  split.
  - destruct (Rle_lt_dec (p * q + h1 * h2) (a * b)) as [Hle | Hlt]; [exact Hle |].
    assert ((a * b) * (a * b) < (p * q + h1 * h2) * (p * q + h1 * h2)) by nra.
    lra.
  - intros Hle.
    assert ((a * b) * (a * b) <= (p * q + h1 * h2) * (p * q + h1 * h2)).
    { apply Rmult_le_compat; lra. }
    assert (Hz : (p * h2 - q * h1) * (p * h2 - q * h1) <= 0) by lra.
    nra.
Qed.

(** The triangle inequality for the two legs [(p, h1)] and [(q, h2)], with
    its case of equality. *)
Lemma minkowski (p q h1 h2 a b l : R) :
  0 <= a -> 0 <= b -> 0 <= l ->
  a * a = p * p + h1 * h1 -> b * b = q * q + h2 * h2 ->
  l * l = (p + q) * (p + q) + (h1 + h2) * (h1 + h2) ->
  l <= a + b /\ (a + b <= l -> p * h2 = q * h1).
Proof.
  intros Ha Hb Hl Haa Hbb Hll.
  destruct (minkowski_product p q h1 h2 a b Ha Hb Haa Hbb) as [Hprod Heq].
  split.
  - destruct (Rle_lt_dec l (a + b)) as [Hle | Hlt]; [exact Hle |].
    assert ((a + b) * (a + b) < l * l) by nra. nra.
  - intros Hle. apply Heq.
    assert ((a + b) * (a + b) <= l * l) by (apply Rmult_le_compat; lra).
    nra.
Qed.

(** The length of a leg is a convex function of its horizontal part, strictly
    so when the vertical part is not zero. *)
Lemma leg_midpoint_convex (p1 p2 h : R) :
  2 * sqrt (((p1 + p2) / 2) ^ 2 + h ^ 2)
    <= sqrt (p1 ^ 2 + h ^ 2) + sqrt (p2 ^ 2 + h ^ 2) /\
  (h <> 0 -> p1 <> p2 ->
   2 * sqrt (((p1 + p2) / 2) ^ 2 + h ^ 2)
     < sqrt (p1 ^ 2 + h ^ 2) + sqrt (p2 ^ 2 + h ^ 2)).
Proof.
  destruct (sqrt_sum_sqr p1 h) as [Ha Haa].
  destruct (sqrt_sum_sqr p2 h) as [Hb Hbb].
  destruct (sqrt_sum_sqr ((p1 + p2) / 2) h) as [Hm Hmm].
  set (a := sqrt (p1 ^ 2 + h ^ 2)) in *.
  set (b := sqrt (p2 ^ 2 + h ^ 2)) in *.
  set (m := sqrt (((p1 + p2) / 2) ^ 2 + h ^ 2)) in *.
  assert (Hl : 0 <= 2 * m) by lra.
  assert (Hll : (2 * m) * (2 * m) = (p1 + p2) * (p1 + p2) + (h + h) * (h + h)).
  { replace ((2 * m) * (2 * m)) with (4 * (m * m)) by ring. rewrite Hmm. field. }
  destruct (minkowski p1 p2 h h a b (2 * m) Ha Hb Hl Haa Hbb Hll) as [Hle Heq].
  split; [exact Hle |].
  intros Hh Hp.
  destruct (Rle_lt_dec (a + b) (2 * m)) as [Hge | Hlt]; [| exact Hlt].
  exfalso. apply Hp. specialize (Heq Hge).
  apply Rmult_eq_reg_r with h; [exact Heq | exact Hh].
Qed.

(** The travel time is strictly convex as soon as one of A and B is off the
    interface. *)
Lemma time_to_travel_strictly_convex
    (c v1 v2 : R) (a b : Point) (iy : R) (size : R * R)
    (self : PathSimulator) (x y : R) :
  c <> 0 -> 0 < v1 -> 0 < v2 ->
  snd a <> iy \/ snd b <> iy ->
  init c v1 v2 a b iy size = Ok self ->
  x <> y ->
  2 * time_to_travel self ((x + y) / 2)
    < time_to_travel self x + time_to_travel self y.
Proof.
  intros Hc H1 H2 Hoff Hinit Hxy.
  rewrite !(time_to_travel_by_speeds _ _ _ _ _ _ _ _ _ Hc Hinit).
  destruct (leg_midpoint_convex (x - fst a) (y - fst a) (iy - snd a))
    as [Hle1 Hlt1].
  destruct (leg_midpoint_convex (fst b - x) (fst b - y) (snd b - iy))
    as [Hle2 Hlt2].
  replace ((x - fst a + (y - fst a)) / 2) with ((x + y) / 2 - fst a)
    in Hle1, Hlt1 by field.
  replace ((fst b - x + (fst b - y)) / 2) with (fst b - (x + y) / 2)
    in Hle2, Hlt2 by field.
  set (am := sqrt (((x + y) / 2 - fst a) ^ 2 + (iy - snd a) ^ 2)) in *.
  set (bm := sqrt ((fst b - (x + y) / 2) ^ 2 + (snd b - iy) ^ 2)) in *.
  set (a1 := sqrt ((x - fst a) ^ 2 + (iy - snd a) ^ 2)) in *.
  set (a2 := sqrt ((y - fst a) ^ 2 + (iy - snd a) ^ 2)) in *.
  set (b1 := sqrt ((fst b - x) ^ 2 + (snd b - iy) ^ 2)) in *.
  set (b2 := sqrt ((fst b - y) ^ 2 + (snd b - iy) ^ 2)) in *.
  assert (Hi1 : 0 < / v1) by (apply Rinv_0_lt_compat; exact H1).
  assert (Hi2 : 0 < / v2) by (apply Rinv_0_lt_compat; exact H2).
  unfold Rdiv.
  assert (Hs1 : 2 * am * / v1 <= (a1 + a2) * / v1).
  { apply Rmult_le_compat_r; lra. }
  assert (Hs2 : 2 * bm * / v2 <= (b1 + b2) * / v2).
  { apply Rmult_le_compat_r; lra. }
  destruct Hoff as [Ha | Hb].
  - assert (Hs1' : 2 * am * / v1 < (a1 + a2) * / v1).
    { apply Rmult_lt_compat_r; [exact Hi1 |]. apply Hlt1; lra. }
    lra.
  - assert (Hs2' : 2 * bm * / v2 < (b1 + b2) * / v2).
    { apply Rmult_lt_compat_r; [exact Hi2 |]. apply Hlt2; lra. }
    lra.
Qed.

Lemma argmin_unique
    (c v1 v2 : R) (a b : Point) (iy : R) (size : R * R)
    (self : PathSimulator) (lo hi x y : R) :
  c <> 0 -> 0 < v1 -> 0 < v2 ->
  snd a <> iy \/ snd b <> iy ->
  init c v1 v2 a b iy size = Ok self ->
  is_argmin (time_to_travel self) lo hi x ->
  is_argmin (time_to_travel self) lo hi y ->
  x = y.
Proof.
  intros Hc H1 H2 Hoff Hinit [Hx Hminx] [Hy Hminy].
  destruct (Req_dec_T x y) as [Heq | Hne]; [exact Heq | exfalso].
  pose proof (time_to_travel_strictly_convex _ _ _ _ _ _ _ _ x y
                Hc H1 H2 Hoff Hinit Hne) as Hconv.
  assert (Hm : lo <= (x + y) / 2 <= hi) by lra.
  pose proof (Hminx _ Hm). pose proof (Hminy _ Hm). lra.
Qed.

(** For positive speeds and A or B off the interface, the travel time has
    at most one minimum on the search interval: two minimizers that both
    find a minimum return the same crossing and lead to the same path. *)
Theorem path_independent_of_minimizer
    (minimize minimize' : minimizer)
    (c v1 v2 : R) (a b : Point) (iy : R) (size : R * R) (self : PathSimulator) :
  c <> 0 -> 0 < v1 -> 0 < v2 ->
  snd a <> iy \/ snd b <> iy ->
  init c v1 v2 a b iy size = Ok self ->
  finds_minimum minimize self ->
  finds_minimum minimize' self ->
  calculate_optimal_path minimize self = calculate_optimal_path minimize' self /\
  calculate_path minimize self = calculate_path minimize' self.
Proof.
  intros Hc H1 H2 Hoff Hinit Hmin Hmin'.
  assert (Hx : crossing minimize self = crossing minimize' self).
  { apply (argmin_unique _ _ _ _ _ _ _ _ _ _ _ _ Hc H1 H2 Hoff Hinit Hmin Hmin'). }
  split.
  - rewrite !calculate_optimal_path_crossing, Hx. reflexivity.
  - pose proof (init_ok_inv _ _ _ _ _ _ _ _ Hinit)
      as (_ & Hv2 & _ & _ & Hn2 & _).
    assert (Hnz : refractive_index_2 self <> 0).
    { rewrite Hn2. apply div_nonzero; assumption. }
    rewrite !(calculate_path_value _ _ Hnz), Hx. reflexivity.
Qed.

Lemma path_independent_of_minimizer_witness :
  calculate_optimal_path midpoint_minimize symmetric_sim
    = calculate_optimal_path (reporting false midpoint_minimize) symmetric_sim /\
  calculate_path midpoint_minimize symmetric_sim
    = calculate_path (reporting false midpoint_minimize) symmetric_sim.
Proof.
  apply (path_independent_of_minimizer midpoint_minimize
           (reporting false midpoint_minimize)
           1 1 1 (0, 10) (10, -10) 0 (20, 20) symmetric_sim).
  - lra.
  - lra.
  - lra.
  - left. cbn. lra.
  - exact init_symmetric.
  - exact midpoint_finds_minimum.
  - exact midpoint_finds_minimum.
Defined.

Lemma opposite_sides (ya yb iy : R) :
  0 < (ya - iy) * (iy - yb) ->
  ya - yb <> 0 /\
  ((0 < ya - iy /\ 0 < iy - yb) \/ (ya - iy < 0 /\ iy - yb < 0)).
Proof.
  intros Hsides.
  assert (Hcases : (0 < ya - iy /\ 0 < iy - yb) \/ (ya - iy < 0 /\ iy - yb < 0)).
  { destruct (Rlt_dec 0 (ya - iy)) as [Hpos | Hnpos].
    - left. split; [exact Hpos | nra].
    - assert (Hne : ya - iy <> 0).
      { intros Hz. rewrite Hz in Hsides. lra. }
      assert (Hneg : ya - iy < 0) by lra.
      right. split; [exact Hneg | nra]. }
  split; [| exact Hcases]. destruct Hcases as [[? ?] | [? ?]]; lra.
Qed.

Lemma straight_crossing_between (a b : Point) (iy : R) :
  0 < (snd a - iy) * (iy - snd b) ->
  Rmin (fst a) (fst b) <= straight_crossing a b iy <= Rmax (fst a) (fst b).
Proof.
  intros Hsides. unfold straight_crossing.
  destruct (opposite_sides _ _ _ Hsides) as [Hd Hcases].
  set (k := (snd a - iy) / (snd a - snd b)).
  assert (Hk : 0 <= k <= 1).
  { assert (Hk1 : k * (snd a - snd b) = snd a - iy) by (unfold k; field; exact Hd).
    assert (Hk2 : (1 - k) * (snd a - snd b) = iy - snd b)
      by (unfold k; field; exact Hd).
    destruct Hcases as [[? ?] | [? ?]]; split; nra. }
  replace ((fst b - fst a) * (snd a - iy) / (snd a - snd b))
    with ((fst b - fst a) * k) by (unfold k; field; exact Hd).
  unfold Rmin, Rmax. destruct (Rle_dec (fst a) (fst b)); split; nra.
Qed.

(** With equal speeds the legs through the straight crossing add up to the
    straight distance, and any point doing as well is the straight crossing. *)
Lemma straight_crossing_optimal (a b : Point) (iy x : R) :
  0 < (snd a - iy) * (iy - snd b) ->
  let legs t :=
    sqrt ((t - fst a) ^ 2 + (iy - snd a) ^ 2)
    + sqrt ((fst b - t) ^ 2 + (snd b - iy) ^ 2) in
  legs x <= legs (straight_crossing a b iy) -> x = straight_crossing a b iy.
Proof.
  intros Hsides legs Hle. unfold legs in Hle.
  destruct (opposite_sides _ _ _ Hsides) as [Hd Hcases].
  set (x0 := straight_crossing a b iy) in *.
  assert (Hx0 : (x0 - fst a) * (snd b - iy) = (fst b - x0) * (iy - snd a)).
  { unfold x0, straight_crossing. field. exact Hd. }
  destruct (sqrt_sum_sqr (x - fst a) (iy - snd a)) as [Ha Haa].
  destruct (sqrt_sum_sqr (fst b - x) (snd b - iy)) as [Hb Hbb].
  destruct (sqrt_sum_sqr (x0 - fst a) (iy - snd a)) as [Ha0 Haa0].
  destruct (sqrt_sum_sqr (fst b - x0) (snd b - iy)) as [Hb0 Hbb0].
  destruct (sqrt_sum_sqr (fst b - fst a) (snd b - snd a)) as [Hl Hll].
  set (a1 := sqrt ((x - fst a) ^ 2 + (iy - snd a) ^ 2)) in *.
  set (b1 := sqrt ((fst b - x) ^ 2 + (snd b - iy) ^ 2)) in *.
  set (a0 := sqrt ((x0 - fst a) ^ 2 + (iy - snd a) ^ 2)) in *.
  set (b0 := sqrt ((fst b - x0) ^ 2 + (snd b - iy) ^ 2)) in *.
  set (l := sqrt ((fst b - fst a) ^ 2 + (snd b - snd a) ^ 2)) in *.
  assert (Hsum : a0 + b0 = l).
  { destruct (minkowski_product (x0 - fst a) (fst b - x0) (iy - snd a)
                (snd b - iy) a0 b0 Ha0 Hb0 Haa0 Hbb0) as [Hprod _].
    assert (Hpq : 0 <= (x0 - fst a) * (fst b - x0)).
    { assert (0 <= ((x0 - fst a) * (fst b - x0))
                   * ((iy - snd a) * (snd b - iy))).
      { replace (((x0 - fst a) * (fst b - x0)) * ((iy - snd a) * (snd b - iy)))
          with (((x0 - fst a) * (snd b - iy)) * ((fst b - x0) * (iy - snd a)))
          by ring.
        rewrite Hx0. apply Rle_0_sqr. }
      nra. }
    assert (Hab : a0 * b0 = (x0 - fst a) * (fst b - x0)
                            + (iy - snd a) * (snd b - iy)).
    { assert (Hsq : (a0 * b0) * (a0 * b0)
                    = ((x0 - fst a) * (fst b - x0) + (iy - snd a) * (snd b - iy))
                      * ((x0 - fst a) * (fst b - x0) + (iy - snd a) * (snd b - iy))).
      { replace ((a0 * b0) * (a0 * b0)) with ((a0 * a0) * (b0 * b0)) by ring.
        rewrite Haa0, Hbb0.
        assert (Hz : ((x0 - fst a) * (snd b - iy) - (fst b - x0) * (iy - snd a))
                     * ((x0 - fst a) * (snd b - iy) - (fst b - x0) * (iy - snd a))
                     = 0) by (rewrite Hx0; ring).
        nra. }
      assert (0 <= a0 * b0) by (apply Rmult_le_pos; assumption).
      nra. }
    assert (Hsq : (a0 + b0) * (a0 + b0) = l * l) by nra.
    assert (0 <= a0 + b0) by lra. nra. }
  destruct (minkowski (x - fst a) (fst b - x) (iy - snd a) (snd b - iy)
              a1 b1 l Ha Hb Hl Haa Hbb) as [_ Heq]; [nra |].
  assert (Hx : (x - fst a) * (snd b - iy) = (fst b - x) * (iy - snd a))
    by (apply Heq; lra).
  assert ((x - x0) * (snd a - snd b) = 0) by nra.
  nra.
Qed.

(** With equal positive speeds and A and B strictly on opposite sides of the
    interface, a minimizer that finds a minimum of the travel time returns
    the point where the straight line from A to B crosses the interface: the
    ray is not bent. *)
Theorem equal_speeds_straight_line
    (minimize : minimizer) (c v : R) (a b : Point) (iy : R) (size : R * R)
    (self : PathSimulator) :
  c <> 0 -> 0 < v ->
  0 < (snd a - iy) * (iy - snd b) ->
  init c v v a b iy size = Ok self ->
  finds_minimum minimize self ->
  calculate_optimal_path minimize self = Ok (straight_crossing a b iy) /\
  exists third,
    calculate_path minimize self
      = Ok [a; (straight_crossing a b iy, iy); third; b].
Proof.
  intros Hc Hv Hsides Hinit Hmin.
  pose proof (init_ok_inv _ _ _ _ _ _ _ _ Hinit)
    as (Hv0 & _ & _ & _ & Hn2 & Ha & Hb & Hiy).
  assert (Hx : crossing minimize self = straight_crossing a b iy).
  { destruct Hmin as [_ Hmin]. rewrite Ha, Hb in Hmin.
    specialize (Hmin _ (straight_crossing_between a b iy Hsides)).
    rewrite !(time_to_travel_by_speeds _ _ _ _ _ _ _ _ _ Hc Hinit) in Hmin.
    apply (straight_crossing_optimal a b iy _ Hsides). cbv beta.
    apply Rmult_le_reg_r with (/ v); [apply Rinv_0_lt_compat; exact Hv |].
    unfold Rdiv in Hmin. lra. }
  split.
  - rewrite calculate_optimal_path_crossing, Hx. reflexivity.
  - eexists.
    rewrite calculate_path_value by (rewrite Hn2; apply div_nonzero; assumption).
    rewrite Hx, Ha, Hb, Hiy. reflexivity.
Qed.

Lemma equal_speeds_straight_line_witness :
  calculate_optimal_path midpoint_minimize symmetric_sim
    = Ok (straight_crossing (0, 10) (10, -10) 0) /\
  exists third,
    calculate_path midpoint_minimize symmetric_sim
      = Ok [(0, 10); (straight_crossing (0, 10) (10, -10) 0, 0); third; (10, -10)].
Proof.
  apply (equal_speeds_straight_line midpoint_minimize 1 1 (0, 10) (10, -10) 0
           (20, 20) symmetric_sim).
  - lra.
  - lra.
  - cbn. lra.
  - exact init_symmetric.
  - exact midpoint_finds_minimum.
Defined.

(** ** Snell's law at the minimum *)

Lemma sqrt_le_of_sqr (X r : R) : 0 <= X -> 0 <= r -> X <= r * r -> sqrt X <= r.
Proof.
  intros HX Hr Hle.
  rewrite <- (sqrt_square r Hr). apply sqrt_le_1; [exact HX | nra | exact Hle].
Qed.

Lemma sqrt_ge_of_sqr (X r : R) : 0 <= X -> r * r <= X -> r <= sqrt X.
Proof.
  intros HX Hle.
  destruct (Rle_lt_dec r 0) as [Hneg | Hpos].
  - pose proof (sqrt_pos X). lra.
  - rewrite <- (sqrt_square r) by lra. apply sqrt_le_1; [nra | exact HX | exact Hle].
Qed.

(** A leg of horizontal part [p + d] is at most the leg of horizontal part
    [p], plus the slope times [d], plus a quadratic term. *)
Lemma leg_upper (p h d A : R) :
  0 < A -> A * A = p * p + h * h ->
  sqrt ((p + d) ^ 2 + h ^ 2) <= A + p * d / A + d * d / (2 * A).
Proof.
  intros HA HAA.
  assert (Hr : A + p * d / A + d * d / (2 * A)
               = ((p + d / 2) * (p + d / 2) + h * h + d * d / 4) / A).
  { replace (h * h) with (A * A - p * p) by lra. field. lra. }
  apply sqrt_le_of_sqr.
  - apply Rplus_le_le_0_compat; apply pow2_ge_0.
  - rewrite Hr. apply Rmult_le_pos; [clear Hr; nra |]. left. apply Rinv_0_lt_compat. exact HA.
  - replace ((p + d) ^ 2 + h ^ 2)
      with ((A + p * d / A + d * d / (2 * A)) * (A + p * d / A + d * d / (2 * A))
            - (p * d / A + d * d / (2 * A)) * (p * d / A + d * d / (2 * A))).
    + pose proof (Rle_0_sqr (p * d / A + d * d / (2 * A))) as Hsq.
      unfold Rsqr in Hsq. lra.
    + replace (h ^ 2) with (A * A - p * p) by lra. field. lra.
Qed.

(** A leg lies above its tangent line. *)
Lemma leg_lower (p h d A : R) :
  0 < A -> A * A = p * p + h * h ->
  A + p * d / A <= sqrt ((p + d) ^ 2 + h ^ 2).
Proof.
  intros HA HAA.
  apply sqrt_ge_of_sqr; [apply Rplus_le_le_0_compat; apply pow2_ge_0 |].
  replace ((p + d) ^ 2 + h ^ 2)
    with ((A + p * d / A) * (A + p * d / A) + (h * d / A) * (h * d / A)).
  - pose proof (Rle_0_sqr (h * d / A)) as Hsq. unfold Rsqr in Hsq. lra.
  - assert (Hd : (p * p + h * h) * (d * d) / (A * A) = d * d).
    { rewrite <- HAA. field. lra. }
    replace ((A + p * d / A) * (A + p * d / A) + h * d / A * (h * d / A))
      with (A * A + 2 * p * d + (p * p + h * h) * (d * d) / (A * A))
      by (field; lra).
    rewrite Hd.
    replace ((p + d) ^ 2 + h ^ 2) with (p * p + h * h + 2 * p * d + d * d) by ring.
    lra.
Qed.

Section TwoLegs.

Variables ax h1 bx h2 v1 v2 : R.
Hypothesis Hv1 : 0 < v1.
Hypothesis Hv2 : 0 < v2.
Hypothesis Hh1 : h1 <> 0.
Hypothesis Hh2 : h2 <> 0.

Let leg1 (t : R) : R := sqrt ((t - ax) ^ 2 + h1 ^ 2).
Let leg2 (t : R) : R := sqrt ((bx - t) ^ 2 + h2 ^ 2).
Let time (t : R) : R := leg1 t / v1 + leg2 t / v2.
Let slope (t : R) : R := (t - ax) / leg1 t / v1 - (bx - t) / leg2 t / v2.
Let bend (t : R) : R := / (2 * leg1 t * v1) + / (2 * leg2 t * v2).

Lemma leg_facts (p h : R) :
  h <> 0 ->
  0 < sqrt (p ^ 2 + h ^ 2) /\
  sqrt (p ^ 2 + h ^ 2) * sqrt (p ^ 2 + h ^ 2) = p * p + h * h.
Proof.
  intros Hh.
  assert (Hpos : 0 < p ^ 2 + h ^ 2) by nra.
  split; [apply sqrt_lt_R0; exact Hpos |].
  rewrite sqrt_sqrt by lra. ring.
Qed.

Lemma time_quadratic_bound (x d : R) :
  time (x + d) <= time x + slope x * d + bend x * (d * d).
Proof.
  unfold time, slope, bend, leg1, leg2.
  destruct (leg_facts (x - ax) h1 Hh1) as [HA HAA].
  destruct (leg_facts (bx - x) h2 Hh2) as [HB HBB].
  pose proof (leg_upper (x - ax) h1 d _ HA HAA) as H1.
  pose proof (leg_upper (bx - x) h2 (- d) _ HB HBB) as H2.
  replace (x - ax + d) with (x + d - ax) in H1 by ring.
  replace (bx - x + - d) with (bx - (x + d)) in H2 by ring.
  set (A := sqrt ((x - ax) ^ 2 + h1 ^ 2)) in *.
  set (B := sqrt ((bx - x) ^ 2 + h2 ^ 2)) in *.
  set (A' := sqrt ((x + d - ax) ^ 2 + h1 ^ 2)) in *.
  set (B' := sqrt ((bx - (x + d)) ^ 2 + h2 ^ 2)) in *.
  assert (Hi1 : 0 < / v1) by (apply Rinv_0_lt_compat; exact Hv1).
  assert (Hi2 : 0 < / v2) by (apply Rinv_0_lt_compat; exact Hv2).
  apply (Rmult_le_compat_r (/ v1)) in H1; [| lra].
  apply (Rmult_le_compat_r (/ v2)) in H2; [| lra].
  replace (A / v1 + B / v2
           + ((x - ax) / A / v1 - (bx - x) / B / v2) * d
           + (/ (2 * A * v1) + / (2 * B * v2)) * (d * d))
    with ((A + (x - ax) * d / A + d * d / (2 * A)) * / v1
          + (B + (bx - x) * - d / B + - d * - d / (2 * B)) * / v2)
    by (field; lra).
  unfold Rdiv at 1 2. lra.
Qed.

Lemma time_tangent_bound (x d : R) :
  time x + slope x * d <= time (x + d).
Proof.
  unfold time, slope, leg1, leg2.
  destruct (leg_facts (x - ax) h1 Hh1) as [HA HAA].
  destruct (leg_facts (bx - x) h2 Hh2) as [HB HBB].
  pose proof (leg_lower (x - ax) h1 d _ HA HAA) as H1.
  pose proof (leg_lower (bx - x) h2 (- d) _ HB HBB) as H2.
  replace (x - ax + d) with (x + d - ax) in H1 by ring.
  replace (bx - x + - d) with (bx - (x + d)) in H2 by ring.
  set (A := sqrt ((x - ax) ^ 2 + h1 ^ 2)) in *.
  set (B := sqrt ((bx - x) ^ 2 + h2 ^ 2)) in *.
  set (A' := sqrt ((x + d - ax) ^ 2 + h1 ^ 2)) in *.
  set (B' := sqrt ((bx - (x + d)) ^ 2 + h2 ^ 2)) in *.
  assert (Hi1 : 0 < / v1) by (apply Rinv_0_lt_compat; exact Hv1).
  assert (Hi2 : 0 < / v2) by (apply Rinv_0_lt_compat; exact Hv2).
  apply (Rmult_le_compat_r (/ v1)) in H1; [| lra].
  apply (Rmult_le_compat_r (/ v2)) in H2; [| lra].
  replace (A / v1 + B / v2 + ((x - ax) / A / v1 - (bx - x) / B / v2) * d)
    with ((A + (x - ax) * d / A) * / v1 + (B + (bx - x) * - d / B) * / v2)
    by (field; lra).
  unfold Rdiv at 1 2. lra.
Qed.

Lemma bend_pos (x : R) : 0 < bend x.
Proof.
  unfold bend, leg1, leg2.
  destruct (leg_facts (x - ax) h1 Hh1) as [HA _].
  destruct (leg_facts (bx - x) h2 Hh2) as [HB _].
  assert (0 < / (2 * sqrt ((x - ax) ^ 2 + h1 ^ 2) * v1)).
  { apply Rinv_0_lt_compat. apply Rmult_lt_0_compat; lra. }
  assert (0 < / (2 * sqrt ((bx - x) ^ 2 + h2 ^ 2) * v2)).
  { apply Rinv_0_lt_compat. apply Rmult_lt_0_compat; lra. }
  lra.
Qed.

Lemma slope_sign (x : R) :
  (x <= ax -> x <= bx -> slope x <= 0) /\
  (ax <= x -> bx <= x -> 0 <= slope x).
Proof.
  unfold slope, leg1, leg2.
  destruct (leg_facts (x - ax) h1 Hh1) as [HA _].
  destruct (leg_facts (bx - x) h2 Hh2) as [HB _].
  set (A := sqrt ((x - ax) ^ 2 + h1 ^ 2)) in *.
  set (B := sqrt ((bx - x) ^ 2 + h2 ^ 2)) in *.
  assert (HiA : 0 < / A * / v1).
  { apply Rmult_lt_0_compat; apply Rinv_0_lt_compat; lra. }
  assert (HiB : 0 < / B * / v2).
  { apply Rmult_lt_0_compat; apply Rinv_0_lt_compat; lra. }
  unfold Rdiv. rewrite !Rmult_assoc.
  split; intros H1 H2; nra.
Qed.

(** At a minimum of the time over [min(ax, bx), max(ax, bx)] the slope of
    the time vanishes. *)
Lemma stationary_at_minimum (x : R) :
  Rmin ax bx <= x <= Rmax ax bx ->
  (forall y, Rmin ax bx <= y <= Rmax ax bx -> time x <= time y) ->
  slope x = 0.
Proof.
  intros Hx Hmin.
  pose proof (bend_pos x) as HC.
  destruct (slope_sign x) as [Hleft Hright].
  assert (Hlo : Rmin ax bx <= ax /\ Rmin ax bx <= bx)
    by (split; [apply Rmin_l | apply Rmin_r]).
  assert (Hhi : ax <= Rmax ax bx /\ bx <= Rmax ax bx)
    by (split; [apply Rmax_l | apply Rmax_r]).
  assert (Hlo' : Rmin ax bx = ax \/ Rmin ax bx = bx).
  { unfold Rmin. destruct (Rle_dec ax bx); auto. }
  assert (Hhi' : Rmax ax bx = ax \/ Rmax ax bx = bx).
  { unfold Rmax. destruct (Rle_dec ax bx); auto. }
  set (g := slope x) in *. set (C := bend x) in *.
  destruct (Rtotal_order g 0) as [Hneg | [Hz | Hpos]]; [| exact Hz |]; exfalso.
  - assert (Hroom : x < Rmax ax bx).
    { destruct (Rle_lt_dec (Rmax ax bx) x) as [Hge | Hlt]; [| exact Hlt].
      assert (0 <= g) by (apply Hright; lra). lra. }
    set (k := - g / (2 * C)).
    assert (Hk : 0 < k /\ k * (2 * C) = - g).
    { unfold k. split; [apply Rdiv_lt_0_compat; lra | field; lra]. }
    set (d := Rmin k (Rmax ax bx - x)).
    assert (Hd : 0 < d /\ d <= k /\ d <= Rmax ax bx - x).
    { unfold d. split; [apply Rmin_glb_lt; lra |].
      split; [apply Rmin_l | apply Rmin_r]. }
    assert (Hy : Rmin ax bx <= x + d <= Rmax ax bx) by lra.
    pose proof (Hmin _ Hy) as Hle.
    pose proof (time_quadratic_bound x d) as Hq. fold g C in Hq.
    destruct Hk as [Hk0 Hk2]. destruct Hd as (Hd0 & Hdk & Hdr).
    assert (H2C : 2 * C * d <= - g).
    { rewrite <- Hk2. replace (k * (2 * C)) with (2 * C * k) by ring.
      apply Rmult_le_compat_l; lra. }
    assert (Hsq : 2 * C * d * d <= - g * d).
    { apply Rmult_le_compat_r; lra. }
    assert (Hgd : g * d < 0).
    { replace 0 with (0 * d) by ring. apply Rmult_lt_compat_r; lra. }
    lra.
  - assert (Hroom : Rmin ax bx < x).
    { destruct (Rle_lt_dec x (Rmin ax bx)) as [Hge | Hlt]; [| exact Hlt].
      assert (g <= 0) by (apply Hleft; lra). lra. }
    set (k := g / (2 * C)).
    assert (Hk : 0 < k /\ k * (2 * C) = g).
    { unfold k. split; [apply Rdiv_lt_0_compat; lra | field; lra]. }
    set (d := Rmin k (x - Rmin ax bx)).
    assert (Hd : 0 < d /\ d <= k /\ d <= x - Rmin ax bx).
    { unfold d. split; [apply Rmin_glb_lt; lra |].
      split; [apply Rmin_l | apply Rmin_r]. }
    assert (Hy : Rmin ax bx <= x + - d <= Rmax ax bx) by lra.
    pose proof (Hmin _ Hy) as Hle.
    pose proof (time_quadratic_bound x (- d)) as Hq. fold g C in Hq.
    destruct Hk as [Hk0 Hk2]. destruct Hd as (Hd0 & Hdk & Hdr).
    assert (H2C : 2 * C * d <= g).
    { rewrite <- Hk2. replace (k * (2 * C)) with (2 * C * k) by ring.
      apply Rmult_le_compat_l; lra. }
    assert (Hsq : 2 * C * d * d <= g * d).
    { apply Rmult_le_compat_r; lra. }
    assert (Hgd : 0 < g * d).
    { apply Rmult_lt_0_compat; lra. }
    replace (g * - d + C * (- d * - d)) with (- (g * d) + C * d * d) in Hq by ring.
    lra.
Qed.

(** A point where the slope vanishes is a minimum of the time. *)
Lemma minimum_at_stationary (x y : R) : slope x = 0 -> time x <= time y.
Proof.
  intros Hz. pose proof (time_tangent_bound x (y - x)) as Ht.
  rewrite Hz in Ht. replace (x + (y - x)) with y in Ht by ring. lra.
Qed.

End TwoLegs.

Lemma sqrt_3_4_5 (p h : R) : p * p + h * h = 25 -> sqrt (p ^ 2 + h ^ 2) = 5.
Proof. intros H. apply sqrt_lem_1; nra. Qed.

Lemma init_refracting :
  init 1 3 4 (0, 4) (7, -3) 0 (20, 20) = Ok refracting_sim.
Proof. apply init_nonzero; lra. Qed.

Lemma fixed_finds_minimum : finds_minimum (fixed_minimize 3) refracting_sim.
Proof.
  unfold finds_minimum, is_argmin.
  change (crossing (fixed_minimize 3) refracting_sim) with 3.
  cbn [refracting_sim point_a point_b fst].
  split.
  - unfold Rmin, Rmax. destruct (Rle_dec 0 7); lra.
  - intros y _.
    rewrite !(time_to_travel_by_speeds 1 3 4 (0, 4) (7, -3) 0 (20, 20)
                refracting_sim _ R1_neq_R0 init_refracting).
    cbn [fst snd].
    apply minimum_at_stationary; try lra.
    rewrite (sqrt_3_4_5 (3 - 0) (0 - 4)) by lra.
    rewrite (sqrt_3_4_5 (7 - 3) (-3 - 0)) by lra.
    field.
Qed.

(** For a non-zero reference speed, positive medium speeds and A and B both
    off the interface, a minimizer that finds a minimum of the travel time
    returns a crossing at which the two legs of the path obey Snell's law:
    index_1 * sin(theta_1) = index_2 * sin(theta_2), the sines being those of
    the angles the legs make with the normal of the interface,
    (x - A.x) / distance_1 and (B.x - x) / segment_2. *)
Theorem optimal_crossing_snell
    (minimize : minimizer) (c v1 v2 : R) (a b : Point) (iy : R) (size : R * R)
    (self : PathSimulator) :
  c <> 0 -> 0 < v1 -> 0 < v2 ->
  snd a <> iy -> snd b <> iy ->
  init c v1 v2 a b iy size = Ok self ->
  finds_minimum minimize self ->
  let x := crossing minimize self in
  let distance_1 := fst (calculate_distance_and_incidence_angle self x) in
  let segment_2 :=
    sqrt ((fst (point_b self) - x) ^ 2
          + (snd (point_b self) - interface_y self) ^ 2) in
  0 < distance_1 /\ 0 < segment_2 /\
  refractive_index_1 self * ((x - fst a) / distance_1)
    = refractive_index_2 self * ((fst b - x) / segment_2).
Proof.
  intros Hc H1 H2 Ha Hb Hinit [Hin Hmin] x distance_1 segment_2.
  pose proof (init_ok_inv _ _ _ _ _ _ _ _ Hinit)
    as (_ & _ & _ & Hn1 & Hn2 & Hpa & Hpb & Hiy).
  assert (Hh1 : iy - snd a <> 0) by lra.
  assert (Hh2 : snd b - iy <> 0) by lra.
  unfold distance_1, segment_2, calculate_distance_and_incidence_angle.
  cbn [fst]. rewrite Hn1, Hn2, Hpa, Hpb, Hiy.
  fold x in Hin, Hmin. rewrite Hpa, Hpb in Hin, Hmin.
  destruct (leg_facts (x - fst a) (iy - snd a) Hh1) as [HA _].
  destruct (leg_facts (fst b - x) (snd b - iy) Hh2) as [HB _].
  split; [exact HA |]. split; [exact HB |].
  assert (Hslope :
    (x - fst a) / sqrt ((x - fst a) ^ 2 + (iy - snd a) ^ 2) / v1
    - (fst b - x) / sqrt ((fst b - x) ^ 2 + (snd b - iy) ^ 2) / v2 = 0).
  { apply (stationary_at_minimum (fst a) (iy - snd a) (fst b) (snd b - iy)
             v1 v2 H1 H2 Hh1 Hh2 x Hin).
    intros y Hy. specialize (Hmin y Hy).
    rewrite !(time_to_travel_by_speeds _ _ _ _ _ _ _ _ _ Hc Hinit) in Hmin.
    exact Hmin. }
  set (A := sqrt ((x - fst a) ^ 2 + (iy - snd a) ^ 2)) in *.
  set (B := sqrt ((fst b - x) ^ 2 + (snd b - iy) ^ 2)) in *.
  apply Rminus_diag_uniq.
  replace (c / v1 * ((x - fst a) / A) - c / v2 * ((fst b - x) / B))
    with (c * ((x - fst a) / A / v1 - (fst b - x) / B / v2))
    by (field; lra).
  rewrite Hslope. ring.
Qed.

Lemma optimal_crossing_snell_witness :
  0 < fst (calculate_distance_and_incidence_angle refracting_sim 3) /\
  0 < sqrt ((7 - 3) ^ 2 + (-3 - 0) ^ 2) /\
  1 / 3 * ((3 - 0) / fst (calculate_distance_and_incidence_angle refracting_sim 3))
    = 1 / 4 * ((7 - 3) / sqrt ((7 - 3) ^ 2 + (-3 - 0) ^ 2)).
Proof.
  apply (optimal_crossing_snell (fixed_minimize 3) 1 3 4 (0, 4) (7, -3) 0
           (20, 20) refracting_sim).
  - lra.
  - lra.
  - lra.
  - cbn. lra.
  - cbn. lra.
  - exact init_refracting.
  - exact fixed_finds_minimum.
Defined.

(** ** When [calculate_path] raises *)

(** On a simulator that was constructed, [calculate_path] raises exactly when
    the reference speed is zero, and then it is ZeroDivisionError (from the
    ratio of the two indices, both zero); a domain error of [math.asin] never
    comes out. *)
Theorem calculate_path_raises_iff_zero_speed_of_light
    (minimize : minimizer) (c v1 v2 : R) (a b : Point) (iy : R) (size : R * R)
    (self : PathSimulator) :
  init c v1 v2 a b iy size = Ok self ->
  (c = 0 -> calculate_path minimize self = Raise ZeroDivisionError) /\
  (c <> 0 -> exists path, calculate_path minimize self = Ok path) /\
  calculate_path minimize self <> Raise ValueError.
Proof.
  intros Hinit.
  apply init_ok_inv in Hinit as (_ & Hv2 & _ & _ & Hn2 & _).
  assert (Hzero : c = 0 -> calculate_path minimize self = Raise ZeroDivisionError).
  { intros ->. apply calculate_path_zero_index. rewrite Hn2. unfold Rdiv. ring. }
  assert (Hok : c <> 0 -> calculate_path minimize self
                          = Ok [point_a self;
        (crossing minimize self, interface_y self);
        (if Rle_dec (crossing minimize self) (fst (point_b self))
         then point_b self else mirror_b self (crossing minimize self));
        point_b self]).
  { intros Hc. apply calculate_path_value. rewrite Hn2.
    apply div_nonzero; assumption. }
  split; [exact Hzero |]. split.
  - intros Hc. eexists. apply (Hok Hc).
  - destruct (Req_dec_T c 0) as [Hc | Hc].
    + rewrite (Hzero Hc). discriminate.
    + rewrite (Hok Hc). discriminate.
Qed.

Lemma calculate_path_raises_iff_zero_speed_of_light_witness :
  exists self,
    init 0 1 1 (0, 10) (10, -10) 0 (20, 20) = Ok self /\
    calculate_path midpoint_minimize self = Raise ZeroDivisionError.
Proof.
  assert (H1 : (1 : R) <> 0) by lra.
  pose proof (init_nonzero 0 1 1 (0, 10) (10, -10) 0 (20, 20) H1 H1) as Hinit.
  eexists. split; [exact Hinit |].
  destruct (calculate_path_raises_iff_zero_speed_of_light midpoint_minimize
              0 1 1 (0, 10) (10, -10) 0 (20, 20) _ Hinit) as [Hzero _].
  apply Hzero. reflexivity.
Defined.

(** * The animator *)

(** ** Segment lengths *)

Lemma path_lengths_cons (p q : Point) (rest : list Point) :
  path_lengths (p :: q :: rest)
    = sqrt ((fst q - fst p) ^ 2 + (snd q - snd p) ^ 2) :: path_lengths (q :: rest).
Proof. reflexivity. Qed.

Lemma path_lengths_nonneg (path : list Point) :
  Forall (fun length => 0 <= length) (path_lengths path).
Proof.
  induction path as [| p [| q rest] IH]; try constructor.
  - apply sqrt_pos.
  - exact IH.
Qed.

Lemma path_lengths_length (path : list Point) :
  length (path_lengths path) = pred (length path).
Proof.
  induction path as [| p [| q rest] IH]; try reflexivity.
  rewrite path_lengths_cons. cbn [length pred] in *. rewrite IH. reflexivity.
Qed.

Lemma np_sum_nonneg (l : list R) :
  Forall (fun x => 0 <= x) l -> 0 <= np_sum l.
Proof.
  unfold np_sum. induction 1 as [| x l Hx _ IH]; cbn; lra.
Qed.

Lemma np_sum_cons (x : R) (l : list R) : np_sum (x :: l) = x + np_sum l.
Proof. reflexivity. Qed.

Lemma np_sum_zero (l : list R) :
  Forall (fun x => 0 <= x) l ->
  (np_sum l = 0 <-> Forall (fun x => x = 0) l).
Proof.
  induction 1 as [| x l Hx Hl IH].
  - split; [constructor | reflexivity].
  - pose proof (np_sum_nonneg l Hl) as Hs. rewrite np_sum_cons. split.
    + intros Hz. constructor; [lra |]. apply IH. lra.
    + intros Hall. inversion Hall as [| ? ? H0 Hrest]; subst.
      apply IH in Hrest. lra.
Qed.

(** All segments have length zero exactly when all points are the first. *)
Lemma path_lengths_all_zero (path : list Point) :
  Forall (fun length => length = 0) (path_lengths path) <->
  forall p, In p path -> p = hd (0, 0) path.
Proof.
  induction path as [| p [| q rest] IH].
  - split; [intros _ r [] | constructor].
  - split; [| constructor]. intros _ r [<- | []]. reflexivity.
  - rewrite path_lengths_cons. cbn [hd] in *. split.
    + intros Hall. inversion Hall as [| ? ? Hz Hrest]; subst.
      apply sqrt_sum_sqr_zero in Hz as [Hx Hy].
      assert (Hq : q = p).
      { rewrite (surjective_pairing q), (surjective_pairing p). f_equal; lra. }
      subst q. intros r [<- | Hin]; [reflexivity |].
      apply IH; assumption.
    + intros Hsame.
      assert (Hq : q = p) by (apply Hsame; right; left; reflexivity).
      subst q. constructor.
      * apply sqrt_sum_sqr_zero. split; ring.
      * apply IH. intros r Hin. apply Hsame. right. exact Hin.
Qed.

(** ** When [generate_frames] raises *)

Lemma map_result_frames_nonzero (total_frames : Z) (total_length : R)
    (lengths : list R) :
  total_length <> 0 ->
  map_result (frames_of_length total_frames total_length) lengths
    = Ok (map (fun length =>
                 int_of_float (IZR total_frames * length / total_length))
              lengths).
Proof.
  intros Hnz. induction lengths as [| l ls IH]; [reflexivity |].
  cbn [map_result map]. unfold frames_of_length at 1.
  destruct (Req_dec_T total_length 0); [contradiction |].
  cbn [bind]. rewrite IH. reflexivity.
Qed.

Lemma map_result_frames_zero (total_frames : Z) (lengths : list R) :
  lengths <> [] ->
  map_result (frames_of_length total_frames 0) lengths = Raise ValueError.
Proof.
  destruct lengths as [| l ls]; [contradiction |]. intros _.
  cbn [map_result]. unfold frames_of_length at 1.
  destruct (Req_dec_T 0 0) as [_ | Hne]; [reflexivity | now elim Hne].
Qed.

Lemma generate_frames_value (path : list Point) (total_frames : Z) :
  np_sum (path_lengths path) <> 0 ->
  generate_frames path total_frames =
    Ok (flat_map
          (fun '(segment_index, num_frames) =>
             segment_positions path segment_index num_frames)
          (combine
             (seq 0 (length (path_lengths path)))
             (map (fun length =>
                     int_of_float (IZR total_frames * length
                                   / np_sum (path_lengths path)))
                  (path_lengths path)))).
Proof.
  intros Hnz. unfold generate_frames.
  rewrite (map_result_frames_nonzero _ _ _ Hnz). cbn [bind].
  rewrite length_map. reflexivity.
Qed.

Lemma degenerate_path_total (path : list Point) :
  degenerate_path path <->
  path_lengths path <> [] /\ np_sum (path_lengths path) = 0.
Proof.
  unfold degenerate_path.
  rewrite (np_sum_zero _ (path_lengths_nonneg path)), path_lengths_all_zero.
  assert (Hlen : (2 <= length path)%nat <-> path_lengths path <> []).
  { destruct path as [| p [| q rest]]; cbn [length].
    - split; [intros H; inversion H | intros H; now elim H].
    - split; [intros H; inversion H as [| ? H']; inversion H'
             | intros H; now elim H].
    - rewrite path_lengths_cons. split; [discriminate |].
      intros _. apply le_n_S, le_n_S, Nat.le_0_l. }
  rewrite Hlen. reflexivity.
Qed.

Lemma generate_frames_degenerate (path : list Point) (total_frames : Z) :
  degenerate_path path ->
  generate_frames path total_frames = Raise ValueError.
Proof.
  intros Hdeg. apply degenerate_path_total in Hdeg as [Hne Hz].
  unfold generate_frames. rewrite Hz.
  rewrite (map_result_frames_zero _ _ Hne). reflexivity.
Qed.

Lemma generate_frames_extent (path : list Point) (total_frames : Z) :
  ~ degenerate_path path ->
  exists frames, generate_frames path total_frames = Ok frames.
Proof.
  intros Hndeg.
  destruct (Req_dec_T (np_sum (path_lengths path)) 0) as [Hz | Hnz].
  - destruct (path_lengths path) as [| l ls] eqn:Hls.
    + eexists. unfold generate_frames. rewrite Hls. reflexivity.
    + exfalso. apply Hndeg. apply degenerate_path_total.
      rewrite Hls. split; [discriminate | exact Hz].
  - eexists. apply (generate_frames_value _ _ Hnz).
Qed.

(** [generate_frames] raises exactly on a path of at least two points that
    are all the same point (the total length is zero, and the share of the
    frames of a segment is 0/0); the error is ValueError.  A path of fewer
    than two points gives no frame. *)
Theorem generate_frames_raises_iff_degenerate
    (path : list Point) (total_frames : Z) :
  (degenerate_path path ->
   generate_frames path total_frames = Raise ValueError) /\
  (~ degenerate_path path ->
   exists frames, generate_frames path total_frames = Ok frames) /\
  ((length path < 2)%nat -> generate_frames path total_frames = Ok []).
Proof.
  split; [| split].
  - apply generate_frames_degenerate.
  - apply generate_frames_extent.
  - intros Hshort.
    assert (Hls : path_lengths path = []).
    { destruct path as [| p [| q rest]]; try reflexivity.
      cbn [length] in Hshort. lia. }
    unfold generate_frames. rewrite Hls. reflexivity.
Qed.

Lemma generate_frames_raises_iff_degenerate_witness :
  generate_frames [(1, 2); (1, 2)] 200 = Raise ValueError /\
  (exists frames,
     generate_frames [(0, 10); (5, 0); (10, -10); (10, -10)] 200 = Ok frames) /\
  generate_frames [(1, 2)] 200 = Ok [].
Proof.
  destruct (generate_frames_raises_iff_degenerate [(1, 2); (1, 2)] 200)
    as [Hraise _].
  destruct (generate_frames_raises_iff_degenerate
              [(0, 10); (5, 0); (10, -10); (10, -10)] 200) as [_ [Hok _]].
  destruct (generate_frames_raises_iff_degenerate [(1, 2)] 200)
    as [_ [_ Hshort]].
  split; [| split].
  - apply Hraise. split; [cbn; lia |].
    intros p [<- | [<- | []]]; reflexivity.
  - apply Hok. intros [_ Hsame].
    assert (Heq : (5, 0) = (0, 10)) by (apply Hsame; cbn; auto).
    injection Heq as Hx _. lra.
  - apply Hshort. cbn. lia.
Defined.

(** ** The number of frames *)

Lemma int_of_float_nonneg (x : R) :
  0 <= x ->
  (0 <= int_of_float x)%Z /\ IZR (int_of_float x) <= x < IZR (int_of_float x) + 1.
Proof.
  intros Hx. unfold int_of_float. destruct (Rle_dec 0 x); [| contradiction].
  split; [apply Zfloor_lub; exact Hx | apply Zfloor_bound].
Qed.

Lemma int_of_float_nonpos (x : R) : x <= 0 -> (int_of_float x <= 0)%Z.
Proof.
  intros Hx. unfold int_of_float. destruct (Rle_dec 0 x) as [H0 | H0].
  - assert (x = 0) by lra. subst x. rewrite (ZfloorZ 0). lia.
  - unfold Zceil.
    assert (0 <= Zfloor (- x))%Z by (apply Zfloor_lub; lra). lia.
Qed.

Lemma segment_positions_length (path : list Point) (k : nat) (n : Z) :
  length (segment_positions path k n) = Z.to_nat n.
Proof. unfold segment_positions. rewrite length_map, length_seq. reflexivity. Qed.

(** The frames of all segments, counted. *)
Lemma frames_length (path : list Point) (start : nat) (segment_frames : list Z) :
  length (flat_map
            (fun '(segment_index, num_frames) =>
               segment_positions path segment_index num_frames)
            (combine (seq start (length segment_frames)) segment_frames))
  = fold_right (fun n acc => (Z.to_nat n + acc)%nat) 0%nat segment_frames.
Proof.
  revert start. induction segment_frames as [| n ns IH]; intros start.
  - reflexivity.
  - cbn [length seq combine flat_map fold_right].
    rewrite length_app, segment_positions_length, IH. reflexivity.
Qed.

(** The shares of the frames, each rounded down, add up to at most the
    whole. *)
Lemma frame_shares (total_frames : Z) (total_length : R) (lengths : list R) :
  (0 <= total_frames)%Z -> 0 < total_length ->
  Forall (fun length => 0 <= length) lengths ->
  INR (fold_right (fun n acc => (Z.to_nat n + acc)%nat) 0%nat
         (map (fun length =>
                 int_of_float (IZR total_frames * length / total_length))
              lengths))
    <= IZR total_frames * np_sum lengths / total_length.
Proof.
  intros HF HT Hall.
  assert (HF' : 0 <= IZR total_frames) by (apply IZR_le in HF; exact HF).
  assert (HiT : 0 < / total_length) by (apply Rinv_0_lt_compat; exact HT).
  induction Hall as [| l ls Hl Hls IH].
  - cbn. unfold Rdiv. rewrite !Rmult_0_r, Rmult_0_l. lra.
  - cbn [map fold_right]. rewrite np_sum_cons, plus_INR.
    assert (Hx : 0 <= IZR total_frames * l / total_length).
    { unfold Rdiv. apply Rmult_le_pos; [apply Rmult_le_pos |]; lra. }
    destruct (int_of_float_nonneg _ Hx) as [Hn0 [Hlo Hhi]].
    rewrite INR_IZR_INZ, Z2Nat.id by exact Hn0.
    replace (IZR total_frames * (l + np_sum ls) / total_length)
      with (IZR total_frames * l / total_length
            + IZR total_frames * np_sum ls / total_length)
      by (field; lra).
    lra.
Qed.

Lemma generate_frames_length_le
    (path : list Point) (total_frames : Z) (frames : list Point) :
  (0 <= total_frames)%Z ->
  generate_frames path total_frames = Ok frames ->
  (Z.of_nat (length frames) <= total_frames)%Z.
Proof.
  intros HF Hgen.
  destruct (Req_dec_T (np_sum (path_lengths path)) 0) as [Hz | Hnz].
  - destruct (path_lengths path) as [| l ls] eqn:Hls.
    + unfold generate_frames in Hgen. rewrite Hls in Hgen.
      injection Hgen as <-. cbn. lia.
    + unfold generate_frames in Hgen. rewrite Hls in Hgen. rewrite Hz in Hgen.
      rewrite map_result_frames_zero in Hgen by discriminate. discriminate.
  - rewrite (generate_frames_value _ _ Hnz) in Hgen. injection Hgen as <-.
    rewrite <- (length_map
                  (fun length =>
                     int_of_float (IZR total_frames * length
                                   / np_sum (path_lengths path)))
                  (path_lengths path)) at 1.
    rewrite frames_length.
    pose proof (path_lengths_nonneg path) as Hall.
    pose proof (np_sum_nonneg _ Hall) as Hsum.
    assert (HT : 0 < np_sum (path_lengths path)) by lra.
    pose proof (frame_shares total_frames _ _ HF HT Hall) as Hle.
    replace (IZR total_frames * np_sum (path_lengths path)
             / np_sum (path_lengths path))
      with (IZR total_frames) in Hle by (field; lra).
    rewrite INR_IZR_INZ in Hle.
    apply le_IZR. exact Hle.
Qed.

(** For a non-negative [total_frames], [generate_frames] never produces
    more than [total_frames] frames: each segment gets its share of the
    frames rounded down, so frames can be lost but none is added. *)
Theorem generate_frames_count
    (path : list Point) (total_frames : Z) (frames : list Point) :
  (0 <= total_frames)%Z ->
  generate_frames path total_frames = Ok frames ->
  (Z.of_nat (length frames) <= total_frames)%Z.
Proof. apply generate_frames_length_le. Qed.

Lemma generate_frames_count_witness :
  exists frames,
    generate_frames [(0, 0); (3, 4)] 10 = Ok frames /\
    (Z.of_nat (length frames) <= 10)%Z.
Proof.
  assert (Hnz : np_sum (path_lengths [(0, 0); (3, 4)]) <> 0).
  { intros Hz.
    assert (Hdeg : degenerate_path [(0, 0); (3, 4)]).
    { apply degenerate_path_total. split; [discriminate | exact Hz]. }
    destruct Hdeg as [_ Hsame].
    assert (Heq : (3, 4) = (0, 0)) by (apply Hsame; cbn; auto).
    injection Heq as Hx _. lra. }
  eexists. split; [apply (generate_frames_value _ _ Hnz) |].
  apply (generate_frames_count [(0, 0); (3, 4)] 10 _).
  - lia.
  - apply (generate_frames_value _ _ Hnz).
Defined.

(** ** Where the frames are *)

Lemma np_interp_inside (t f0 f1 : R) :
  0 <= t < 1 -> np_interp t f0 f1 = f0 + t * (f1 - f0).
Proof.
  intros [Hlo Hhi]. unfold np_interp.
  destruct (Rlt_dec t 0); [lra |]. destruct (Rle_dec 1 t); [lra |].
  field.
Qed.

Lemma frame_parameter (i : nat) (n : Z) :
  (i < Z.to_nat n)%nat -> 0 <= INR i / IZR n < 1.
Proof.
  intros Hi.
  assert (Hn : (0 < n)%Z) by lia.
  assert (Hn' : 0 < IZR n) by (apply (IZR_lt 0); exact Hn).
  assert (Hin : INR i < IZR n).
  { rewrite INR_IZR_INZ. apply IZR_lt. lia. }
  pose proof (pos_INR i) as Hi0.
  assert (Hinv : 0 < / IZR n) by (apply Rinv_0_lt_compat; exact Hn').
  unfold Rdiv. split; [nra |].
  apply Rmult_lt_reg_r with (IZR n); [exact Hn' |].
  rewrite Rmult_assoc, Rinv_l by lra. lra.
Qed.

Lemma in_segment_positions (path : list Point) (k : nat) (n : Z) (frame : Point) :
  In frame (segment_positions path k n) ->
  exists t, 0 <= t < 1 /\
    frame = (fst (nth k path (0, 0))
               + t * (fst (nth (S k) path (0, 0)) - fst (nth k path (0, 0))),
             snd (nth k path (0, 0))
               + t * (snd (nth (S k) path (0, 0)) - snd (nth k path (0, 0)))).
Proof.
  unfold segment_positions. intros Hin.
  apply in_map_iff in Hin as [i [<- Hi]].
  apply in_seq in Hi as [_ Hi]. cbn in Hi.
  pose proof (frame_parameter i n Hi) as Ht.
  exists (INR i / IZR n). split; [exact Ht |].
  cbv zeta. rewrite !(np_interp_inside _ _ _ Ht). reflexivity.
Qed.

Lemma in_frames (path : list Point) (start : nat) (segment_frames : list Z)
    (frame : Point) :
  In frame
    (flat_map
       (fun '(segment_index, num_frames) =>
          segment_positions path segment_index num_frames)
       (combine (seq start (length segment_frames)) segment_frames)) ->
  exists k n,
    (start <= k < start + length segment_frames)%nat /\
    In frame (segment_positions path k n).
Proof.
  intros Hin. apply in_flat_map in Hin as [[k n] [Hpair Hframe]].
  exists k, n. split; [| exact Hframe].
  apply in_combine_l in Hpair. apply in_seq in Hpair. exact Hpair.
Qed.

(** Every frame lies on a segment of the path, between two consecutive
    points, and never at the far end of its segment. *)
Theorem generate_frames_on_segments
    (path : list Point) (total_frames : Z) (frames : list Point) (frame : Point) :
  generate_frames path total_frames = Ok frames ->
  In frame frames ->
  exists (k : nat) (t : R),
    (S k < length path)%nat /\ 0 <= t < 1 /\
    frame = (fst (nth k path (0, 0))
               + t * (fst (nth (S k) path (0, 0)) - fst (nth k path (0, 0))),
             snd (nth k path (0, 0))
               + t * (snd (nth (S k) path (0, 0)) - snd (nth k path (0, 0)))).
Proof.
  intros Hgen Hin.
  destruct (Req_dec_T (np_sum (path_lengths path)) 0) as [Hz | Hnz].
  - exfalso. unfold generate_frames in Hgen. rewrite Hz in Hgen.
    destruct (path_lengths path) as [| l ls] eqn:Hls.
    + injection Hgen as <-. exact Hin.
    + rewrite map_result_frames_zero in Hgen by discriminate. discriminate.
  - rewrite (generate_frames_value _ _ Hnz) in Hgen. injection Hgen as <-.
    rewrite <- (length_map
                  (fun length =>
                     int_of_float (IZR total_frames * length
                                   / np_sum (path_lengths path)))
                  (path_lengths path)) in Hin at 1.
    apply in_frames in Hin as (k & n & [_ Hk] & Hframe).
    rewrite length_map, path_lengths_length in Hk.
    apply in_segment_positions in Hframe as (t & Ht & Heq).
    exists k, t. split; [lia |]. split; [exact Ht | exact Heq].
Qed.

Lemma two_point_path_extent : np_sum (path_lengths [(0, 0); (3, 4)]) <> 0.
Proof.
  intros Hz.
  assert (Hdeg : degenerate_path [(0, 0); (3, 4)]).
  { apply degenerate_path_total. split; [discriminate | exact Hz]. }
  destruct Hdeg as [_ Hsame].
  assert (Heq : (3, 4) = (0, 0)) by (apply Hsame; cbn; auto).
  injection Heq as Hx _. lra.
Qed.

Lemma int_of_float_IZR (n : Z) : (0 <= n)%Z -> int_of_float (IZR n) = n.
Proof.
  intros Hn. unfold int_of_float.
  destruct (Rle_dec 0 (IZR n)) as [_ | Hneg]; [apply ZfloorZ |].
  exfalso. apply Hneg. apply (IZR_le 0). exact Hn.
Qed.

Lemma two_point_frames :
  generate_frames [(0, 0); (3, 4)] 10
    = Ok (segment_positions [(0, 0); (3, 4)] 0 10 ++ []).
Proof.
  rewrite (generate_frames_value _ _ two_point_path_extent).
  pose proof two_point_path_extent as Hnz. revert Hnz.
  cbn [path_lengths length seq map combine flat_map].
  unfold np_sum. cbn [fold_right]. intros Hnz.
  replace (IZR 10 * sqrt ((fst (3, 4) - fst (0, 0)) ^ 2
                          + (snd (3, 4) - snd (0, 0)) ^ 2)
           / (sqrt ((fst (3, 4) - fst (0, 0)) ^ 2
                    + (snd (3, 4) - snd (0, 0)) ^ 2) + 0))
    with (IZR 10) by (field; lra).
  rewrite int_of_float_IZR by lia. reflexivity.
Qed.

Lemma generate_frames_on_segments_witness :
  exists (frames : list Point) (frame : Point),
    generate_frames [(0, 0); (3, 4)] 10 = Ok frames /\
    In frame frames /\
    exists (k : nat) (t : R),
      (S k < length [(0, 0); (3, 4)])%nat /\ 0 <= t < 1 /\
      frame = (fst (nth k [(0, 0); (3, 4)] (0, 0))
                 + t * (fst (nth (S k) [(0, 0); (3, 4)] (0, 0))
                        - fst (nth k [(0, 0); (3, 4)] (0, 0))),
               snd (nth k [(0, 0); (3, 4)] (0, 0))
                 + t * (snd (nth (S k) [(0, 0); (3, 4)] (0, 0))
                        - snd (nth k [(0, 0); (3, 4)] (0, 0)))).
Proof.
  assert (Hin : In (hd (0, 0) (segment_positions [(0, 0); (3, 4)] 0 10))
                   (segment_positions [(0, 0); (3, 4)] 0 10 ++ [])).
  { apply in_or_app. left. unfold segment_positions.
    change (Z.to_nat 10) with 10%nat. cbn [seq map hd]. left. reflexivity. }
  eexists. eexists. split; [exact two_point_frames |]. split; [exact Hin |].
  apply (generate_frames_on_segments [(0, 0); (3, 4)] 10 _ _ two_point_frames Hin).
Defined.

(** ** The path of the simulator, animated *)

Lemma sqrt_sum_sqr_mirror (d e : R) :
  sqrt ((d + d) ^ 2 + (e + e) ^ 2) = 2 * sqrt (d ^ 2 + e ^ 2).
Proof.
  destruct (sqrt_sum_sqr d e) as [Hs Hss].
  apply sqrt_lem_1; [nra | lra |].
  replace (2 * sqrt (d ^ 2 + e ^ 2) * (2 * sqrt (d ^ 2 + e ^ 2)))
    with (4 * (sqrt (d ^ 2 + e ^ 2) * sqrt (d ^ 2 + e ^ 2))) by ring.
  rewrite Hss. ring.
Qed.

(** The polyline handed to the animator: its first segment is the first leg
    of the ray and its second segment is as long as the second leg.  When B
    is not left of the crossing the third segment has no length; when B is
    left of the crossing the polyline runs to the mirror image of B and back
    to B, a third segment twice as long as the second leg. *)
Theorem calculate_path_segment_lengths
    (minimize : minimizer) (self : PathSimulator) :
  refractive_index_2 self <> 0 ->
  let x := crossing minimize self in
  let distance_1 := fst (calculate_distance_and_incidence_angle self x) in
  let segment_2 :=
    sqrt ((fst (point_b self) - x) ^ 2
          + (snd (point_b self) - interface_y self) ^ 2) in
  exists path,
    calculate_path minimize self = Ok path /\
    path_lengths path
      = [distance_1; segment_2;
         if Rle_dec x (fst (point_b self)) then 0 else 2 * segment_2].
Proof.
  intros Hn2 x distance_1 segment_2.
  eexists. split; [apply (calculate_path_value _ _ Hn2) |].
  fold x. unfold distance_1, segment_2, calculate_distance_and_incidence_angle.
  cbn [fst].
  destruct (Rle_dec x (fst (point_b self))) as [Hle | Hgt].
  - cbn [path_lengths fst snd]. f_equal. f_equal. f_equal.
    replace ((fst (point_b self) - fst (point_b self)) ^ 2
             + (snd (point_b self) - snd (point_b self)) ^ 2) with 0 by ring.
    apply sqrt_0.
  - unfold mirror_b. cbn [path_lengths fst snd]. f_equal. f_equal.
    + f_equal. ring.
    + f_equal. rewrite <- sqrt_sum_sqr_mirror. f_equal. ring.
Qed.

Lemma calculate_path_segment_lengths_witness :
  exists path,
    calculate_path midpoint_minimize leftward_sim = Ok path /\
    path_lengths path
      = [fst (calculate_distance_and_incidence_angle leftward_sim
                (crossing midpoint_minimize leftward_sim));
         sqrt ((fst (point_b leftward_sim)
                - crossing midpoint_minimize leftward_sim) ^ 2
               + (snd (point_b leftward_sim) - interface_y leftward_sim) ^ 2);
         if Rle_dec (crossing midpoint_minimize leftward_sim)
                    (fst (point_b leftward_sim))
         then 0
         else 2 * sqrt ((fst (point_b leftward_sim)
                         - crossing midpoint_minimize leftward_sim) ^ 2
                        + (snd (point_b leftward_sim)
                           - interface_y leftward_sim) ^ 2)].
Proof.
  apply (calculate_path_segment_lengths midpoint_minimize leftward_sim).
  exact leftward_index_nonzero.
Defined.

(** ** No frames *)

Lemma no_frames (total_frames : Z) (total_length : R) (lengths : list R) :
  (total_frames <= 0)%Z -> 0 < total_length ->
  Forall (fun length => 0 <= length) lengths ->
  fold_right (fun n acc => (Z.to_nat n + acc)%nat) 0%nat
    (map (fun length =>
            int_of_float (IZR total_frames * length / total_length))
         lengths) = 0%nat.
Proof.
  intros HF HT Hall.
  assert (HF' : IZR total_frames <= 0) by (apply (IZR_le _ 0); exact HF).
  assert (HiT : 0 < / total_length) by (apply Rinv_0_lt_compat; exact HT).
  induction Hall as [| l ls Hl _ IH]; [reflexivity |].
  cbn [map fold_right]. rewrite IH.
  assert (Hx : IZR total_frames * l / total_length <= 0).
  { unfold Rdiv. assert (IZR total_frames * l <= 0) by nra. nra. }
  pose proof (int_of_float_nonpos _ Hx). lia.
Qed.

(** With [total_frames] zero or negative, [generate_frames] produces no
    frame at all. *)
Theorem generate_frames_without_frames
    (path : list Point) (total_frames : Z) (frames : list Point) :
  (total_frames <= 0)%Z ->
  generate_frames path total_frames = Ok frames ->
  frames = [].
Proof.
  intros HF Hgen.
  destruct (Req_dec_T (np_sum (path_lengths path)) 0) as [Hz | Hnz].
  - unfold generate_frames in Hgen. rewrite Hz in Hgen.
    destruct (path_lengths path) as [| l ls] eqn:Hls.
    + injection Hgen as <-. reflexivity.
    + rewrite map_result_frames_zero in Hgen by discriminate. discriminate.
  - rewrite (generate_frames_value _ _ Hnz) in Hgen. injection Hgen as <-.
    apply length_zero_iff_nil.
    rewrite <- (length_map
                  (fun length =>
                     int_of_float (IZR total_frames * length
                                   / np_sum (path_lengths path)))
                  (path_lengths path)) at 1.
    rewrite frames_length.
    pose proof (path_lengths_nonneg path) as Hall.
    pose proof (np_sum_nonneg _ Hall) as Hsum.
    apply no_frames; [exact HF | lra | exact Hall].
Qed.

Lemma generate_frames_without_frames_witness :
  exists frames,
    generate_frames [(0, 0); (3, 4)] (-5) = Ok frames /\ frames = [].
Proof.
  eexists. split; [apply (generate_frames_value _ _ two_point_path_extent) |].
  apply (generate_frames_without_frames [(0, 0); (3, 4)] (-5) _).
  - lia.
  - apply (generate_frames_value _ _ two_point_path_extent).
Defined.

(** ** From the configuration to the frames *)

Lemma crossing_degenerate (minimize : minimizer) (self : PathSimulator) :
  within_bounds minimize ->
  fst (point_a self) = fst (point_b self) ->
  crossing minimize self = fst (point_a self).
Proof.
  intros Hbounds Heq. unfold crossing, optimal_path_result.
  assert (Hle : Rmin (fst (point_a self)) (fst (point_b self))
                <= Rmax (fst (point_a self)) (fst (point_b self))).
  { apply Rle_trans with (fst (point_a self)); [apply Rmin_l | apply Rmax_l]. }
  pose proof (Hbounds (time_to_travel self) (fst (point_a self)) _ _ Hle) as Hin.
  set (x := res_x _) in *.
  unfold Rmin, Rmax in Hin.
  destruct (Rle_dec (fst (point_a self)) (fst (point_b self))); lra.
Qed.

(** For positive speeds and a minimizer that respects its bounds, the run of
    [main.py] up to the frames raises exactly when A and B are one and the
    same point of the interface, where the path has no extent (ValueError
    from [generate_frames]).  In every other configuration it produces the
    frames, at most [frames] of them when [frames] is not negative. *)
Theorem main_frames_outcome
    (minimize : minimizer) (c v1 v2 : R) (a b : Point) (iy size : R)
    (frames : Z) :
  0 < c -> 0 < v1 -> 0 < v2 ->
  within_bounds minimize ->
  (a = b /\ snd a = iy ->
   main_frames minimize c v1 v2 a b iy size frames = Raise ValueError) /\
  (~ (a = b /\ snd a = iy) ->
   exists positions,
     main_frames minimize c v1 v2 a b iy size frames = Ok positions /\
     ((0 <= frames)%Z -> (Z.of_nat (length positions) <= frames)%Z)).
Proof.
  intros Hc H1 H2 Hbounds.
  assert (Hv1 : v1 <> 0) by lra. assert (Hv2 : v2 <> 0) by lra.
  unfold main_frames.
  rewrite (init_nonzero c v1 v2 a b iy (size, size) Hv1 Hv2). cbn [bind].
  set (self := {| speed_of_light := c;
                  refractive_index_1 := c / v1;
                  refractive_index_2 := c / v2;
                  point_a := a; point_b := b; interface_y := iy;
                  plane_size := (size, size) |}).
  assert (Hn2 : refractive_index_2 self <> 0).
  { cbn. apply div_nonzero; lra. }
  rewrite (calculate_path_value minimize self Hn2). cbn [bind].
  cbn [point_a point_b interface_y self].
  split.
  - intros [Hab Hay]. subst b.
    apply generate_frames_degenerate.
    assert (Hx : crossing minimize self = fst a).
    { apply (crossing_degenerate minimize self Hbounds). reflexivity. }
    rewrite Hx.
    destruct (Rle_dec (fst a) (fst a)) as [_ | Hn]; [| exfalso; apply Hn; lra].
    assert (Ha : (fst a, iy) = a).
    { rewrite <- Hay. symmetry. apply surjective_pairing. }
    rewrite Ha. split; [cbn; lia |].
    intros p [<- | [<- | [<- | [<- | []]]]]; reflexivity.
  - intros Hnot.
    destruct (generate_frames_extent
                [a; (crossing minimize self, iy);
                 (if Rle_dec (crossing minimize self) (fst b)
                  then b else mirror_b self (crossing minimize self));
                 b] frames) as [positions Hgen].
    + intros [_ Hsame]. apply Hnot. cbn [hd] in Hsame.
      assert (Hb : b = a) by (apply Hsame; cbn; auto).
      assert (Hcross : (crossing minimize self, iy) = a)
        by (apply Hsame; cbn; auto).
      split; [symmetry; exact Hb |].
      rewrite <- Hcross. reflexivity.
    + exists positions. split; [exact Hgen |].
      intros HF. apply (generate_frames_length_le _ _ _ HF Hgen).
Qed.

Lemma main_frames_outcome_witness :
  main_frames midpoint_minimize 1 1 1 (3, 0) (3, 0) 0 20 200 = Raise ValueError /\
  exists positions,
    main_frames midpoint_minimize 1 1 1 (0, 10) (10, -10) 0 20 200 = Ok positions /\
    (Z.of_nat (length positions) <= 200)%Z.
Proof.
  assert (H1 : 0 < 1) by lra.
  destruct (main_frames_outcome midpoint_minimize 1 1 1 (3, 0) (3, 0) 0 20 200
              H1 H1 H1 midpoint_within_bounds) as [Hraise _].
  destruct (main_frames_outcome midpoint_minimize 1 1 1 (0, 10) (10, -10) 0 20 200
              H1 H1 H1 midpoint_within_bounds) as [_ Hok].
  split.
  - apply Hraise. split; reflexivity.
  - destruct Hok as [positions [Hrun Hcount]].
    + intros [Heq _]. injection Heq as Hx _. lra.
    + exists positions. split; [exact Hrun | apply Hcount; lia].
Defined.

(** ** Left to right *)

(** With a minimizer that respects its bounds, whenever B is not left of A
    the crossing lies between them and the path is the ray itself: from A to
    the crossing point and on to B, B being repeated.  For A and B on one
    vertical line the crossing is straight below or above A. *)
Theorem calculate_path_left_to_right
    (minimize : minimizer) (self : PathSimulator) :
  within_bounds minimize ->
  refractive_index_2 self <> 0 ->
  fst (point_a self) <= fst (point_b self) ->
  fst (point_a self) <= crossing minimize self <= fst (point_b self) /\
  calculate_path minimize self
    = Ok [point_a self; (crossing minimize self, interface_y self);
          point_b self; point_b self] /\
  (fst (point_a self) = fst (point_b self) ->
   calculate_path minimize self
     = Ok [point_a self; (fst (point_a self), interface_y self);
           point_b self; point_b self]).
Proof.
  intros Hbounds Hn2 Hab.
  assert (Hin : fst (point_a self) <= crossing minimize self
                <= fst (point_b self)).
  { unfold crossing, optimal_path_result.
    assert (Hle : Rmin (fst (point_a self)) (fst (point_b self))
                  <= Rmax (fst (point_a self)) (fst (point_b self))).
    { apply Rle_trans with (fst (point_a self)); [apply Rmin_l | apply Rmax_l]. }
    pose proof (Hbounds (time_to_travel self) (fst (point_a self)) _ _ Hle)
      as Hres.
    set (x := res_x _) in *.
    rewrite Rmin_left, Rmax_right in Hres by exact Hab. exact Hres. }
  assert (Hpath : calculate_path minimize self
                  = Ok [point_a self; (crossing minimize self, interface_y self);
                        point_b self; point_b self]).
  { rewrite (calculate_path_value _ _ Hn2).
    destruct (Rle_dec (crossing minimize self) (fst (point_b self)));
      [reflexivity | lra]. }
  split; [exact Hin |]. split; [exact Hpath |].
  intros Heq. rewrite Hpath.
  rewrite (crossing_degenerate _ _ Hbounds Heq). reflexivity.
Qed.

Lemma calculate_path_left_to_right_witness :
  fst (point_a symmetric_sim) <= crossing midpoint_minimize symmetric_sim
    <= fst (point_b symmetric_sim) /\
  calculate_path midpoint_minimize symmetric_sim
    = Ok [point_a symmetric_sim;
          (crossing midpoint_minimize symmetric_sim, interface_y symmetric_sim);
          point_b symmetric_sim; point_b symmetric_sim].
Proof.
  destruct (calculate_path_left_to_right midpoint_minimize symmetric_sim
              midpoint_within_bounds symmetric_index_nonzero)
    as (Hin & Hpath & _).
  - cbn. lra.
  - split; [exact Hin | exact Hpath].
Defined.

Lemma incidence_angle_range_witness :
  - PI < snd (calculate_distance_and_incidence_angle symmetric_sim 5) < 0.
Proof.
  destruct (incidence_angle_range symmetric_sim 5) as (_ & Habove & _).
  apply Habove. cbn. lra.
Defined.
